(** * livegrep-gitlab-reindex: discovery, filtering and index-specification building

    A shallow embedding of [cmd/livegrep-gitlab-reindex/main.go] and the
    properties of its pipeline

      loadRepos -> filterRepos -> sort.Sort (ReposByName) -> buildConfig.

    Go strings are byte sequences: they are modelled by [string] (a list of
    8-bit [ascii]).  A [map[string]struct{}] that may be [nil] is an
    [option (gset string)].  Calls that leave the process (the GitLab client,
    [git rev-parse], the file system) are modelled by the answers they give. *)

From Stdlib Require Import ZArith Ascii String DecimalString List Sorted Permutation.
From stdpp Require Import base decidable option list gmap strings sorting.
Import ListNotations.

Local Open Scope string_scope.
Local Open Scope list_scope.

(** ** Results of fallible calls: Go's [(value, error)] pairs *)

Inductive result (A : Type) : Type :=
| Ok (a : A)
| Err (e : string).
Arguments Ok {A} a.
Arguments Err {A} e.

(** ** Data model *)

Module gitlab.

(** [gitlab.ForkParent]: of the parent reference the program reads only
    the namespace-qualified path (for the log line). *)
Record ForkParent : Type := {
  ParentPathWithNamespace : string
}.

(** [gitlab.Project]: the fields of a repository descriptor that the
    program reads, and [Archived], which it never reads. *)
Record Project : Type := {
  PathWithNamespace : string;
  SSHURLToRepo : string;
  HTTPURLToRepo : string;
  WebURL : string;
  Archived : bool;
  ForkedFromProject : option ForkParent
}.

End gitlab.
Import gitlab.

(** The command-line flags that the functions below and their call in
    [main] read: process-global variables in the source, here one record
    passed explicitly. *)
Record Flags : Type := {
  flagGitlabToken : string;
  flagUrlPattern : string;
  flagForks : bool;
  flagArchived : bool;
  flagHTTP : bool;
  flagHTTPUsername : string;
  flagDepth : Z;
  flagSkipMissing : bool
}.

(** The defaults declared with the flags ([GITLAB_TOKEN] unset). *)
Definition defaultFlags : Flags := {|
  flagGitlabToken := "";
  flagUrlPattern := "https://gitlab.com/{name}/-/blob/{version}/{path}#L{lno}";
  flagForks := true;
  flagArchived := false;
  flagHTTP := false;
  flagHTTPUsername := "git";
  flagDepth := 0;
  flagSkipMissing := false
|}.

(** ** filterRepos *)

(** The ignore list is a [map[string]struct{}]; [None] is the nil map that
    [main] passes when no [-ignorelist] file is given.  Membership in a nil
    map is always false. *)
Definition inIgnorelist (ignorelist : option (gset string)) (p : string) : Prop :=
  match ignorelist with
  | Some m => p ∈ m
  | None => False
  end.

(** State of the loop: the slice [out] and the lines written by [log.Printf]
    ([log.SetFlags(0)]: no prefix). *)
Definition filterState : Type := (list Project * list string)%type.

Definition filterRepos_body (ignorelist : option (gset string))
    (excludeForks excludeArchived : bool) (st : filterState) (r : Project)
    : filterState :=
  let '(out, logged) := st in
  match excludeForks, ForkedFromProject r with
  | true, Some parent =>
      (out, logged ++ ["Excluding fork " +:+ PathWithNamespace r +:+
                       ", was forked from " +:+ ParentPathWithNamespace parent])
  | _, _ =>
      match ignorelist with
      | Some m =>
          if decide (PathWithNamespace r ∈ m) then (out, logged)
          else (out ++ [r], logged)
      | None => (out ++ [r], logged)
      end
  end.

(** [filterRepos] returns the surviving descriptors (first component) and
    the log lines it printed (second component). *)
Definition filterRepos (repos : list Project) (ignorelist : option (gset string))
    (excludeForks excludeArchived : bool) : filterState :=
  fold_left (filterRepos_body ignorelist excludeForks excludeArchived) repos ([], []).

(** The decision the loop body takes for one descriptor, as a predicate. *)
Definition isFork (r : Project) : bool :=
  match ForkedFromProject r with Some _ => true | None => false end.

Definition kept (ignorelist : option (gset string)) (excludeForks : bool)
    (r : Project) : bool :=
  negb (excludeForks && isFork r) &&
  match ignorelist with
  | Some m => negb (bool_decide (PathWithNamespace r ∈ m))
  | None => true
  end.

(** ** loadIgnorelist *)

(** The parts with [sep] between them ([strings.Join]). *)
Fixpoint joinWith (sep : string) (parts : list string) : string :=
  match parts with
  | [] => ""
  | [x] => x
  | x :: xs => x +:+ sep +:+ joinWith sep xs
  end.

Definition newline : ascii := "010"%char.

(** [strings.Split(s, sep)] for a separator [sep] of one byte: the
    substrings between the occurrences of [sep]; one more than there are
    occurrences, so [[""]] for the empty string. *)
Fixpoint strings_Split (s : string) (sep : ascii) : list string :=
  match s with
  | EmptyString => [""]
  | String c rest =>
      if Ascii.eqb c sep then "" :: strings_Split rest sep
      else match strings_Split rest sep with
           | l :: ls => String c l :: ls
           | [] => [String c ""]
           end
  end.

(** The byte [sep] does not occur in [l]. *)
Definition noSeparator (sep : ascii) (l : string) : Prop :=
  ¬ In sep (list_ascii_of_string l).

(** The file system as [ioutil.ReadFile] sees it: a path gives the bytes of
    the file or an error. *)
Definition FileSystem : Type := string → result string.

Definition loadIgnorelist (ReadFile : FileSystem) (path : string)
    : result (gset string) :=
  match ReadFile path with
  | Err e => Err e
  | Ok data =>
      let lines := strings_Split data newline in
      Ok (fold_left (λ (out : gset string) l, {[ l ]} ∪ out) lines ∅)
  end.

(** ** loadRepos *)

(** What one call of [ListGroupProjects] or [ListProjects] returns: the
    items [ps] and [resp.NextPage], or an error. *)
Inductive PageResponse : Type :=
| Page (ps : list Project) (NextPage : Z)
| PageError (e : string).

(** What the client was asked: the group (for a group listing) or the
    [Archived] option (for the listing of everything accessible), with the
    [ListOptions]. *)
Inductive Request : Type :=
| ListGroupProjects (group : string) (PerPage page : Z)
| ListProjects (archived : bool) (PerPage page : Z).

(** The listing service is given by the answers it makes, in the order of
    the calls; [None] is returned when the program asks for an answer
    beyond the end of that sequence.  The result carries the requests sent
    so far and the answers not yet consumed. *)
Definition Discovery : Type :=
  (result (list Project) * list Request * list PageResponse)%type.

(** The [for { ... }] loop over the pages of one listing, from [opt.Page]. *)
Fixpoint fetchPages (mkRequest : Z → Request) (page : Z)
    (projects : list Project) (sent : list Request)
    (answers : list PageResponse) : option Discovery :=
  match answers with
  | [] => None
  | PageError e :: answers' => Some (Err e, sent ++ [mkRequest page], answers')
  | Page ps NextPage :: answers' =>
      let projects := projects ++ ps in
      if decide (NextPage = 0%Z)
      then Some (Ok projects, sent ++ [mkRequest page], answers')
      else fetchPages mkRequest NextPage projects (sent ++ [mkRequest page]) answers'
  end.

(** The [for _, group := range groups] loop. *)
Fixpoint fetchGroups (groups : list string) (projects : list Project)
    (sent : list Request) (answers : list PageResponse) : option Discovery :=
  match groups with
  | [] => Some (Ok projects, sent, answers)
  | group :: groups' =>
      match fetchPages (λ page, ListGroupProjects group 100 page) 1 projects sent answers with
      | None => None
      | Some (Err e, sent', answers') => Some (Err e, sent', answers')
      | Some (Ok projects', sent', answers') =>
          fetchGroups groups' projects' sent' answers'
      end
  end.

Definition loadRepos (flags : Flags) (groups : list string)
    (answers : list PageResponse) : option Discovery :=
  if decide (0 < length groups)
  then fetchGroups groups [] [] answers
  else fetchPages (λ page, ListProjects (flagArchived flags) 100 page) 1 [] [] answers.

(** The items of an answer, whether it is a page at all, and whether it is
    the last page of a listing ([NextPage] is the sentinel zero). *)
Definition pageItems (a : PageResponse) : list Project :=
  match a with
  | Page ps _ => ps
  | PageError _ => []
  end.

Definition isPage (a : PageResponse) : bool :=
  match a with
  | Page _ _ => true
  | PageError _ => false
  end.

Definition isLastPage (a : PageResponse) : bool :=
  match a with
  | Page _ NextPage => bool_decide (NextPage = 0%Z)
  | PageError _ => false
  end.

Definition lastPages (answers : list PageResponse) : nat :=
  length (List.filter isLastPage answers).

(** The number of listings [loadRepos] pages through: one for each group,
    or the one listing of everything accessible. *)
Definition listings (groups : list string) : nat :=
  match groups with
  | [] => 1
  | _ => length groups
  end.

(** ** ReposByName *)

(** [Less] of [ReposByName]: Go's [<] on strings, the lexicographic order
    of the bytes. *)
Definition ReposByName_Less (a b : Project) : bool :=
  String.ltb (PathWithNamespace a) (PathWithNamespace b).

(** What [sort.Sort] leaves behind: no element is [Less] than one before it
    (stated on neighbours), and the elements are those it was given. *)
Definition sortedByName (repos : list Project) : Prop :=
  Sorted (λ a b, ReposByName_Less b a = false) repos.

(** The order of the namespace-qualified paths: [a] is at most [b]. *)
Definition pathLe (a b : Project) : Prop :=
  String.le (PathWithNamespace a) (PathWithNamespace b).

Definition sort_Sort_post (before after : list Project) : Prop :=
  Permutation before after ∧ sortedByName after.

(** ** path.Join *)

(** Go's package [path], which the program imports: [Join] and the [Clean]
    it ends with, written after the library's algorithm (a read index into
    the path, an output buffer, and the index [dotdot]). *)
Module path.

Definition slash : ascii := "/"%char.
Definition dot : ascii := "."%char.

Definition isSlash (c : ascii) : bool := Ascii.eqb c slash.
Definition isDot (c : ascii) : bool := Ascii.eqb c dot.

(** Is the byte at the head of [p] a slash, or [p] at its end?  (The tests
    [r+1 == n || path[r+1] == '/'] of [Clean].) *)
Definition endOfElement (p : list ascii) : bool :=
  match p with
  | [] => true
  | c :: _ => isSlash c
  end.

(** [for out.w > dotdot && out.index(out.w) != '/' { out.w-- }] *)
Fixpoint backtrack (out : list ascii) (dotdot w : nat) : nat :=
  match w with
  | 0 => 0
  | S w' =>
      if (dotdot <? w)%nat && negb (isSlash (nth w out slash))
      then backtrack out dotdot w'
      else w
  end.

(** The main loop of [Clean]: [p] is what is left to read of the path,
    [out] the bytes written so far ([out.w] is its length), [dotdot] the
    index where [..] must stop. *)
Fixpoint Clean_loop (rooted : bool) (p : list ascii) (out : list ascii)
    (dotdot : nat) {struct p} : list ascii :=
  match p with
  | [] => out
  | c :: rest =>
      if isSlash c then
        (* empty path element *)
        Clean_loop rooted rest out dotdot
      else if isDot c && endOfElement rest then
        (* . element *)
        Clean_loop rooted rest out dotdot
      else
        let element :=
          (* real path element: add slash if needed, copy the element *)
          let out :=
            if (rooted && negb (length out =? 1)%nat)
               || (negb rooted && negb (length out =? 0)%nat)
            then out ++ [slash] else out in
          (fix copy (q : list ascii) (out : list ascii) {struct q} : list ascii :=
             match q with
             | [] => out
             | c' :: q' =>
                 if isSlash c' then Clean_loop rooted q' out dotdot
                 else copy q' (out ++ [c'])
             end) rest (out ++ [c]) in
        match rest with
        | c2 :: rest2 =>
            if isDot c && isDot c2 && endOfElement rest2 then
              (* .. element: remove to last / *)
              if (dotdot <? length out)%nat then
                let w := backtrack out dotdot (length out - 1) in
                Clean_loop rooted rest2 (take w out) dotdot
              else if negb rooted then
                let out := if (0 <? length out)%nat then out ++ [slash] else out in
                let out := out ++ [dot; dot] in
                Clean_loop rooted rest2 out (length out)
              else Clean_loop rooted rest2 out dotdot
            else element
        | [] => element
        end
  end.

(** [path.Clean] *)
Definition Clean (p : string) : string :=
  match list_ascii_of_string p with
  | [] => "."
  | c :: rest =>
      let out :=
        if isSlash c then Clean_loop true rest [slash] 1
        else Clean_loop false (c :: rest) [] 0 in
      match out with
      | [] => "."
      | _ => string_of_list_ascii out
      end
  end.

(** [path.Join]: the elements, without the empty ones, joined by slashes
    and cleaned; the empty string when there is nothing to join. *)
Definition Join (elem : list string) : string :=
  if (fold_left (λ size e, size + String.length e) elem 0 =? 0)%nat then ""
  else
    Clean (fold_left
             (λ buf e,
                if (0 <? String.length buf)%nat || negb (String.eqb e "")
                then (if (0 <? String.length buf)%nat then buf +:+ "/" else buf) +:+ e
                else buf)
             elem "").

End path.

(** ** The index specification *)

Module config.

(** Modelled from the spec: the record types of the package
    [src/proto/config] (generated from the protocol description, not among
    the sources), with the fields the builder sets.  The fields it leaves
    at their zero value are left out of the serialized text and of this
    model. *)
Record Metadata : Type := {
  UrlPattern : string;
  Remote : string;
  Github : string
}.

Record CloneOptions : Type := {
  Depth : Z;
  Username : string;
  PasswordEnv : string
}.

Record RepoSpec : Type := {
  Path : string;
  Name : string;
  Revisions : list string;
  Metadata_ : Metadata;
  CloneOptions_ : CloneOptions
}.

Record IndexSpec : Type := {
  IndexName : string;
  Repositories : list RepoSpec
}.

End config.
Import config.

(** ** encoding/json *)

(** Go's package [encoding/json], as far as [MarshalIndent] needs it for the
    specification: strings, numbers, arrays and objects, the escapes of the
    string encoder, the two-space indentation. *)
Module json.

#[local] Set Warnings "-register-all".

Inductive value : Type :=
| JString (s : string)
| JNumber (n : Z)
| JArray (elems : list value)
| JObject (fields : list (string * value)).

Definition quote : ascii := "034"%char.
Definition backslash : ascii := "\"%char.

Definition hexDigit (n : nat) : ascii :=
  nth n (list_ascii_of_string "0123456789abcdef") "0"%char.

(** [htmlSafeSet]: the bytes below 0x80 written as they are. *)
Definition htmlSafe (c : ascii) : bool :=
  let n := nat_of_ascii c in
  (32 <=? n)%nat && negb (Ascii.eqb c quote) && negb (Ascii.eqb c backslash)
  && negb (Ascii.eqb c "<") && negb (Ascii.eqb c ">") && negb (Ascii.eqb c "&").

Definition between (lo hi : nat) (c : ascii) : bool :=
  (lo <=? nat_of_ascii c)%nat && (nat_of_ascii c <=? hi)%nat.

(** The size of the UTF-8 sequence at the head of [c :: s], as
    [utf8.DecodeRuneInString] finds it; [1] with [false] is the decoder's
    [RuneError] for a byte that starts no well-formed sequence. *)
Definition decodeRune (c : ascii) (s : string) : nat * bool :=
  let cont := between 128 191 in
  let n := nat_of_ascii c in
  match s with
  | String c1 s1 =>
      if between 194 223 c && cont c1 then (2, true)
      else
        match s1 with
        | String c2 s2 =>
            if (((n =? 224)%nat && between 160 191 c1)
                || ((between 225 236 c || between 238 239 c) && cont c1)
                || ((n =? 237)%nat && between 128 159 c1)) && cont c2
            then (3, true)
            else
              match s2 with
              | String c3 _ =>
                  if (((n =? 240)%nat && between 144 191 c1)
                      || (between 241 243 c && cont c1)
                      || ((n =? 244)%nat && between 128 143 c1))
                     && cont c2 && cont c3
                  then (4, true) else (1, false)
              | EmptyString => (1, false)
              end
        | EmptyString => (1, false)
        end
  | EmptyString => (1, false)
  end.

(** The body of the string encoder ([escapeHTML] set, as [Marshal] has
    it).  [skip] counts the bytes of a multi-byte sequence that are still
    to be passed over: copied when [keep], dropped after the escape of
    U+2028 and U+2029.

    The escapes are those of the library before Go 1.22: the backspace and
    the form feed are written in the six-character form with [u00] and two
    hexadecimal digits, like the other control characters (from Go 1.22 on
    the library writes the two-character forms with [b] and [f]), and a
    byte that is not valid UTF-8 is written as the six-character escape of
    U+FFFD. *)
Fixpoint escape (s : string) (skip : nat) (keep : bool) : string :=
  match s with
  | EmptyString => EmptyString
  | String c rest =>
      match skip with
      | S skip' =>
          if keep then String c (escape rest skip' keep) else escape rest skip' keep
      | 0 =>
          if (nat_of_ascii c <? 128)%nat then
            if htmlSafe c then String c (escape rest 0 true)
            else if Ascii.eqb c backslash || Ascii.eqb c quote then
              String backslash (String c (escape rest 0 true))
            else if Ascii.eqb c "010" then "\n" +:+ escape rest 0 true
            else if Ascii.eqb c "013" then "\r" +:+ escape rest 0 true
            else if Ascii.eqb c "009" then "\t" +:+ escape rest 0 true
            else
              "\u00" +:+ String (hexDigit (nat_of_ascii c / 16))
                          (String (hexDigit (nat_of_ascii c mod 16))
                             (escape rest 0 true))
          else
            match decodeRune c rest with
            | (_, false) => "\ufffd" +:+ escape rest 0 true
            | (size, true) =>
                match rest with
                | String c1 (String c2 _) =>
                    if (nat_of_ascii c =? 226)%nat && (nat_of_ascii c1 =? 128)%nat
                       && between 168 169 c2
                    then "\u202" +:+ String (hexDigit (nat_of_ascii c2 mod 16))
                                          (escape rest 2 false)
                    else String c (escape rest (size - 1) true)
                | _ => String c (escape rest (size - 1) true)
                end
            end
      end
  end.

Definition encodeString (s : string) : string :=
  String quote (escape s 0 true) +:+ String quote "".

(** [strconv.AppendInt(_, n, 10)] *)
Definition encodeInt (n : Z) : string :=
  DecimalString.NilZero.string_of_int (Z.to_int n).

Fixpoint spaces (depth : nat) : string :=
  match depth with
  | 0 => ""
  | S d => "  " +:+ spaces d
  end.

Definition newlineIndent (depth : nat) : string :=
  String "010" (spaces depth).

(** The text of [MarshalIndent(v, "", "  ")] for a value nested [depth]
    levels deep: an element or field per line, empty arrays and objects
    closed at once. *)
Fixpoint indented (depth : nat) (v : value) : string :=
  match v with
  | JString s => encodeString s
  | JNumber n => encodeInt n
  | JArray [] => "[]"
  | JArray elems =>
      "[" +:+ newlineIndent (S depth)
      +:+ joinWith ("," +:+ newlineIndent (S depth)) (map (indented (S depth)) elems)
      +:+ newlineIndent depth +:+ "]"
  | JObject [] => "{}"
  | JObject fields =>
      "{" +:+ newlineIndent (S depth)
      +:+ joinWith ("," +:+ newlineIndent (S depth))
            (map (λ kv : string * value,
                    encodeString kv.1 +:+ ": " +:+ indented (S depth) kv.2) fields)
      +:+ newlineIndent depth +:+ "}"
  end.

(** A struct field tagged [omitempty] is left out when it holds the zero
    value of a string, a number or a slice. *)
Definition isEmptyValue (v : value) : bool :=
  match v with
  | JString "" => true
  | JNumber 0 => true
  | JArray [] => true
  | _ => false
  end.

Definition omitempty (fields : list (string * value)) : list (string * value) :=
  List.filter (λ kv : string * value, negb (isEmptyValue kv.2)) fields.

(** Modelled from the spec: the [json] tags of the generated record types
    (not among the sources): every field under the name it has in the
    protocol description, with [omitempty]; a pointer to a record is
    written whenever it is not nil. *)
Definition ofMetadata (m : Metadata) : value :=
  JObject (omitempty [("url_pattern", JString (UrlPattern m));
                      ("remote", JString (Remote m));
                      ("github", JString (Github m))]).

Definition ofCloneOptions (c : CloneOptions) : value :=
  JObject (omitempty [("depth", JNumber (Depth c));
                      ("username", JString (Username c));
                      ("password_env", JString (PasswordEnv c))]).

Definition ofRepoSpec (r : RepoSpec) : value :=
  JObject (omitempty [("path", JString (Path r));
                      ("name", JString (Name r));
                      ("revisions", JArray (map JString (Revisions r)))]
           ++ [("metadata", ofMetadata (Metadata_ r));
               ("clone_options", ofCloneOptions (CloneOptions_ r))]).

Definition ofIndexSpec (cfg : IndexSpec) : value :=
  JObject (omitempty [("name", JString (IndexName cfg));
                      ("repositories", JArray (map ofRepoSpec (Repositories cfg)))]).

(** [json.MarshalIndent(cfg, "", "  ")]; it has no error for these types. *)
Definition MarshalIndent (cfg : IndexSpec) : result string :=
  Ok (indented 0 (ofIndexSpec cfg)).

End json.

(** ** buildConfig *)

(** The conversion [int32(n)] of a Go [int]: the low 32 bits, signed. *)
Definition int32 (n : Z) : Z := ((n + 2 ^ 31) mod 2 ^ 32 - 2 ^ 31)%Z.

(** [exec.Command(name, args...).Run()]: [true] when the command ran and
    exited with status zero (the error is nil). *)
Definition Runner : Type := string → list string → bool.

(** The [git rev-parse --verify] check of the skip-missing policy: [true]
    when the repository is to be skipped. *)
Definition revisionMissing (flags : Flags) (run : Runner) (dir revision : string)
    (r : Project) : bool :=
  flagSkipMissing flags &&
  negb (run "git" ["--git-dir"; path.Join [dir; PathWithNamespace r];
                   "rev-parse"; "--verify"; revision]).

(** The record appended for one repository. *)
Definition repoSpecOf (flags : Flags) (dir revision : string) (r : Project) : RepoSpec :=
  let remote := SSHURLToRepo r in
  let remote := if flagHTTP flags then HTTPURLToRepo r else remote in
  let password_env :=
    if decide (flagGitlabToken flags ≠ "") then "GITLAB_TOKEN" else "" in
  {| Path := path.Join [dir; PathWithNamespace r];
     Name := PathWithNamespace r;
     Revisions := [revision];
     Metadata_ := {| Github := WebURL r;
                     Remote := remote;
                     UrlPattern := flagUrlPattern flags |};
     CloneOptions_ := {| Depth := int32 (flagDepth flags);
                         Username := flagHTTPUsername flags;
                         PasswordEnv := password_env |} |}.

(** State of the loop: [cfg] and the lines written by [log.Printf]. *)
Definition buildState : Type := (IndexSpec * list string)%type.

Definition buildConfig_body (flags : Flags) (run : Runner) (dir revision : string)
    (st : buildState) (r : Project) : buildState :=
  let '(cfg, logged) := st in
  if revisionMissing flags run dir revision r then
    (cfg, logged ++ ["Skipping missing revision repo=" +:+ PathWithNamespace r
                     +:+ " rev=" +:+ revision])
  else
    ({| IndexName := IndexName cfg;
        Repositories := Repositories cfg ++ [repoSpecOf flags dir revision r] |},
     logged).

(** The specification [cfg] as it stands when the loop of [buildConfig]
    ends, with the log lines. *)
Definition buildConfig_cfg (flags : Flags) (run : Runner) (name dir : string)
    (repos : list Project) (revision : string) : buildState :=
  fold_left (buildConfig_body flags run dir revision) repos
    ({| IndexName := name; Repositories := [] |}, []).

(** [buildConfig]: the serialized specification (or the error of the
    serializer) and the log lines. *)
Definition buildConfig (flags : Flags) (run : Runner) (name dir : string)
    (repos : list Project) (revision : string) : result string * list string :=
  let '(cfg, logged) := buildConfig_cfg flags run name dir repos revision in
  (json.MarshalIndent cfg, logged).

(** The repositories that the skip-missing policy lets through. *)
Definition verified (flags : Flags) (run : Runner) (dir revision : string)
    (repos : list Project) : list Project :=
  List.filter (λ r, negb (revisionMissing flags run dir revision r)) repos.

(** The flags with another credential. *)
Definition withToken (flags : Flags) (token : string) : Flags := {|
  flagGitlabToken := token;
  flagUrlPattern := flagUrlPattern flags;
  flagForks := flagForks flags;
  flagArchived := flagArchived flags;
  flagHTTP := flagHTTP flags;
  flagHTTPUsername := flagHTTPUsername flags;
  flagDepth := flagDepth flags;
  flagSkipMissing := flagSkipMissing flags
|}.

(** Does [sub] occur in [s] as a run of consecutive bytes? *)
Fixpoint contains (s sub : string) : bool :=
  String.prefix sub s ||
  match s with
  | EmptyString => false
  | String _ rest => contains rest sub
  end.

(** ** Example data *)

Module examples.

(** The two repositories of the end-to-end scenarios. *)
Definition svc : Project := {|
  PathWithNamespace := "teamA/svc";
  SSHURLToRepo := "git@gitlab.example.com:teamA/svc.git";
  HTTPURLToRepo := "https://gitlab.example.com/teamA/svc.git";
  WebURL := "https://gitlab.example.com/teamA/svc";
  Archived := false;
  ForkedFromProject := None |}.

Definition legacy : Project := {|
  PathWithNamespace := "teamA/legacy";
  SSHURLToRepo := "git@gitlab.example.com:teamA/legacy.git";
  HTTPURLToRepo := "https://gitlab.example.com/teamA/legacy.git";
  WebURL := "https://gitlab.example.com/teamA/legacy";
  Archived := true;
  ForkedFromProject := Some {| ParentPathWithNamespace := "teamA/base" |} |}.

(** A descriptor whose namespace-qualified path is the empty string. *)
Definition unnamed : Project := {|
  PathWithNamespace := "";
  SSHURLToRepo := "git@gitlab.example.com:x.git";
  HTTPURLToRepo := "https://gitlab.example.com/x.git";
  WebURL := "https://gitlab.example.com/x";
  Archived := false;
  ForkedFromProject := None |}.

(** An ignore-list file with the one line [teamA/svc], ended by a
    newline: its second, last line is empty. *)
Definition ignoreFile : string := "teamA/svc" +:+ String newline "".

Definition fileSystem : FileSystem :=
  λ path, if String.eqb path "ignore.txt" then Ok ignoreFile
          else Err "open: no such file or directory".

(** Every [git rev-parse] succeeds. *)
Definition allPresent : Runner := λ _ _, true.

End examples.

(** ** Further definitions for the properties of the other functions *)

(** The log lines of the forks of a collection, as [filterRepos] words
    them, in order. *)
Definition forkLines (repos : list Project) : list string :=
  flat_map (λ r, match ForkedFromProject r with
                 | Some parent =>
                     ["Excluding fork " +:+ PathWithNamespace r +:+
                      ", was forked from " +:+ ParentPathWithNamespace parent]
                 | None => []
                 end) repos.

(** How often the byte [sep] occurs in [s]. *)
Definition countByte (sep : ascii) (s : string) : nat :=
  length (List.filter (Ascii.eqb sep) (list_ascii_of_string s)).

(** The page and the page size that a request asks for. *)
Definition requestPage (rq : Request) : Z :=
  match rq with
  | ListGroupProjects _ _ page => page
  | ListProjects _ _ page => page
  end.

Definition requestPerPage (rq : Request) : Z :=
  match rq with
  | ListGroupProjects _ PerPage _ => PerPage
  | ListProjects _ PerPage _ => PerPage
  end.

(** The pages to ask for, one for each answer of [consumed], when the
    protocol is followed from [page] on: after a page that names a next page,
    that page; after the last page of a listing, page 1 of the next
    listing. *)
Fixpoint pagesAsked (page : Z) (consumed : list PageResponse) : list Z :=
  match consumed with
  | [] => []
  | a :: rest =>
      page :: pagesAsked (match a with
                          | Page _ NextPage =>
                              if decide (NextPage = 0%Z) then 1%Z else NextPage
                          | PageError _ => 1%Z
                          end) rest
  end.

(** A request that [loadRepos] may send for these flags and groups: with
    groups, a listing of one of them; without, the listing of everything
    accessible with the archived option of the flags. *)
Definition requestFor (flags : Flags) (groups : list string) (rq : Request) : Prop :=
  match rq with
  | ListGroupProjects group _ _ => group ∈ groups
  | ListProjects archived _ _ => groups = [] ∧ archived = flagArchived flags
  end.

(** The log lines of the repositories that the skip-missing policy leaves
    out, as [buildConfig] words them, in order. *)
Definition skipLines (flags : Flags) (run : Runner) (dir revision : string)
    (repos : list Project) : list string :=
  map (λ r, "Skipping missing revision repo=" +:+ PathWithNamespace r
            +:+ " rev=" +:+ revision)
      (List.filter (revisionMissing flags run dir revision) repos).

(** ** ReposByName as a sort.Interface *)

(** [r[i]] for a Go index: [None] when the index is out of range (the
    program panics). *)
Definition ReposByName_index (r : list Project) (i : Z) : option Project :=
  if (0 <=? i)%Z then r !! Z.to_nat i else None.

Definition ReposByName_Len (r : list Project) : Z := Z.of_nat (length r).

(** [r[i], r[j] = r[j], r[i]]: both elements are read, then [r[i]] and
    [r[j]] are written. *)
Definition ReposByName_Swap (r : list Project) (i j : Z) : option (list Project) :=
  match ReposByName_index r i, ReposByName_index r j with
  | Some a, Some b => Some (<[Z.to_nat j := a]> (<[Z.to_nat i := b]> r))
  | _, _ => None
  end.

(** The index that holds after a swap of [i] and [j] what [k] held before. *)
Definition swapIndex (i j k : nat) : nat :=
  if decide (k = i) then j else if decide (k = j) then i else k.

(** ** findBinary *)

(** More of Go's package [path], and [strings.Replace], for [findBinary]. *)
Module pathlib.

(** [bytealg.LastIndexByteString(s, c)]: the index of the last [c] in [s],
    or -1. *)
Fixpoint lastIndexFrom (s : string) (c : ascii) (i last : Z) : Z :=
  match s with
  | EmptyString => last
  | String c' rest =>
      lastIndexFrom rest c (i + 1) (if Ascii.eqb c' c then i else last)
  end.

Definition LastIndexByte (s : string) (c : ascii) : Z :=
  lastIndexFrom s c 0 (-1).

(** The slice [s[lo:hi]]. *)
Definition slice (s : string) (lo hi : Z) : string :=
  String.substring (Z.to_nat lo) (Z.to_nat (hi - lo)) s.

Definition len (s : string) : Z := Z.of_nat (String.length s).

(** [path.Split]: the path up to and with its last slash, and the rest. *)
Definition Split (p : string) : string * string :=
  let i := LastIndexByte p path.slash in
  (slice p 0 (i + 1), slice p (i + 1) (len p)).

(** [path.Dir] *)
Definition Dir (p : string) : string := path.Clean (Split p).1.

(** [for len(path) > 0 && path[len(path)-1] == '/' { path = path[0 : len(path)-1] }] *)
Fixpoint stripTrailingSlashes (p : string) : string :=
  match p with
  | EmptyString => EmptyString
  | String c rest =>
      match stripTrailingSlashes rest with
      | EmptyString => if path.isSlash c then EmptyString else String c EmptyString
      | rest' => String c rest'
      end
  end.

(** [path.Base] *)
Definition Base (p : string) : string :=
  if String.eqb p "" then "."
  else
    let p := stripTrailingSlashes p in
    let i := LastIndexByte p path.slash in
    let p := if (0 <=? i)%Z then slice p (i + 1) (len p) else p in
    if String.eqb p "" then "/" else p.

(** The replacements of [strings.Replace] for a non-empty [old]: at the
    first byte of an occurrence of [old] the text [new] is written and the
    bytes of the occurrence ([skip] counts those still to pass) are left
    out; the search goes on behind the occurrence. *)
Fixpoint replaceFrom (s old new : string) (skip : nat) : string :=
  match s with
  | EmptyString => EmptyString
  | String c rest =>
      match skip with
      | S skip' => replaceFrom rest old new skip'
      | 0 =>
          if String.prefix old s
          then new +:+ replaceFrom rest old new (String.length old - 1)
          else String c (replaceFrom rest old new 0)
      end
  end.

(** The replacements for the empty [old]: [new] after every UTF-8 sequence
    ([skip] counts the bytes of the sequence still to copy). *)
Fixpoint insertAfterRunes (s new : string) (skip : nat) : string :=
  match s with
  | EmptyString => EmptyString
  | String c rest =>
      let width :=
        match skip with
        | 0 => if (nat_of_ascii c <? 128)%nat then 1 else (json.decodeRune c rest).1
        | S _ => skip
        end in
      String c (if (width =? 1)%nat then new +:+ insertAfterRunes rest new 0
                else insertAfterRunes rest new (width - 1))
  end.

(** [strings.Replace(s, old, new, -1)] *)
Definition ReplaceAll (s old new : string) : string :=
  if String.eqb old new then s
  else if String.eqb old "" then new +:+ insertAfterRunes s new 0
  else replaceFrom s old new 0.

End pathlib.

(** [os.ModeDir], the bit of a file mode that marks a directory. *)
Definition ModeDir : Z := Z.shiftl 1 31.

(** [os.Stat]: the mode bits of the file at a path, or an error. *)
Definition StatFn : Type := string → result Z.

(** The two places where [findBinary] looks, for the program started as
    [args0] ([os.Args[0]]). *)
Definition findBinary_paths (args0 name : string) : list string :=
  [path.Join [pathlib.Dir args0; name];
   pathlib.ReplaceAll args0 (pathlib.Base args0) name].

(** The loop over the paths to try. *)
Fixpoint findBinary_loop (Stat : StatFn) (paths : list string) (name : string) : string :=
  match paths with
  | [] => name
  | try :: paths' =>
      match Stat try with
      | Ok mode =>
          if (Z.land mode ModeDir =? 0)%Z then try
          else findBinary_loop Stat paths' name
      | Err _ => findBinary_loop Stat paths' name
      end
  end.

Definition findBinary (Stat : StatFn) (args0 name : string) : string :=
  findBinary_loop Stat (findBinary_paths args0 name) name.

(** A path that [findBinary] accepts: [os.Stat] succeeds and the mode does
    not have the directory bit. *)
Definition usable (Stat : StatFn) (p : string) : bool :=
  match Stat p with
  | Ok mode => (Z.land mode ModeDir =? 0)%Z
  | Err _ => false
  end.

(** ** writeConfig and main *)

(** The flags that only [main] reads, with those of the other functions.
    [flagIndexPath] is the value of [flagIndexPath.Get()] (the type
    [dynamicDefault] of that flag is declared in a file of the package that
    is not among the sources), [flagGroups] the [-group] arguments. *)
Record MainFlags : Type := {
  helperFlags : Flags;
  flagCodesearch : string;
  flagFetchReindex : string;
  flagApiBaseUrl : string;
  flagRepoDir : string;
  flagIgnorelist : string;
  flagIndexPath : string;
  flagRevision : string;
  flagName : string;
  flagNumRepoUpdateWorkers : string;
  flagRevparse : bool;
  flagNoIndex : bool;
  flagGroups : list string
}.

(** What the program finds around it: the answers of the calls that leave
    the process.  An [option string] is the error of a call ([None]: nil). *)
Record World : Type := {
  ioutil_ReadFile : FileSystem;
  gitlab_NewClient : string → string → option string;
  gitlab_answers : list PageResponse;
  git_Run : Runner;
  sort_Sort : list Project → list Project;
  os_MkdirAll : string → Z → option string;
  ioutil_WriteFile : string → string → Z → option string;
  os_Args0 : string;
  os_Stat : StatFn;
  os_Environ : list string;
  cmd_Run : string → list string → option (list string) → option string
}.

(** What a run of the program does, in order: the lines it logs, the
    requests it sends, the [git] commands that [buildConfig] runs for the
    skip-missing policy (with their arguments), the calls that change the
    disk, the reindexer it runs (with [cmd.Env]: [None] when the child
    inherits the environment), and the exit of [log.Fatal]. *)
Inductive Event : Type :=
| Logged (line : string)
| Sent (rq : Request)
| Git (args : list string)
| MkdirAll (dir : string) (perm : Z)
| WriteFile (file data : string) (perm : Z)
| Run (name : string) (args : list string) (env : option (list string))
| Exit (code : Z).

(** [log.Fatalf], [log.Fatalln]: the line, then [os.Exit(1)]. *)
Definition fatal (line : string) : list Event := [Logged line; Exit 1].

(** [writeConfig]: the calls made and the error returned.  The permissions
    are 0755 and 0644. *)
Definition writeConfig (w : World) (config file : string)
    : list Event * option string :=
  let dir := pathlib.Dir file in
  match os_MkdirAll w dir 493 with
  | Some err => ([MkdirAll dir 493], Some err)
  | None =>
      ([MkdirAll dir 493; WriteFile file config 420],
       ioutil_WriteFile w file config 420)
  end.

(** The ignore list of [main]: nil unless [-ignorelist] names a file. *)
Definition main_ignorelist (mf : MainFlags) (w : World)
    : result (option (gset string)) :=
  if String.eqb (flagIgnorelist mf) "" then Ok None
  else match loadIgnorelist (ioutil_ReadFile w) (flagIgnorelist mf) with
       | Ok ignorelist => Ok (Some ignorelist)
       | Err err => Err err
       end.

(** The arguments of the reindexer. *)
Definition main_args (mf : MainFlags) (index configPath : string) : list string :=
  let args := ["--out"; index;
               "--codesearch"; flagCodesearch mf;
               "--num-workers"; flagNumRepoUpdateWorkers mf] in
  let args := if flagNoIndex mf then args ++ ["--no-index"] else args in
  let args := if flagRevparse mf then args ++ ["--revparse"] else args in
  let args := if flagSkipMissing (helperFlags mf)
              then args ++ ["--skip-missing"] else args in
  args ++ [configPath].

(** The environment of the reindexer. *)
Definition main_env (mf : MainFlags) (w : World) : option (list string) :=
  if String.eqb (flagGitlabToken (helperFlags mf)) "" then None
  else Some (os_Environ w ++ ["GITLAB_TOKEN=" +:+ flagGitlabToken (helperFlags mf)]).

(** The arguments of the [git] command of [buildConfig] for one
    repository. *)
Definition revParseArgs (dir revision : string) (r : Project) : list string :=
  ["--git-dir"; path.Join [dir; PathWithNamespace r];
   "rev-parse"; "--verify"; revision].

(** What the loop of [buildConfig] does besides building the
    specification: for each repository in turn, when skip-missing is set,
    the [git] command and, when that fails, the log line. *)
Definition buildConfig_trace (flags : Flags) (run : Runner) (dir revision : string)
    (repos : list Project) : list Event :=
  flat_map
    (λ r, if flagSkipMissing flags then
            Git (revParseArgs dir revision r)
            :: (if run "git" (revParseArgs dir revision r) then []
                else [Logged ("Skipping missing revision repo=" +:+ PathWithNamespace r
                              +:+ " rev=" +:+ revision)])
          else [])
    repos.

(** [main] after [flag.Parse()]; [None] when the answers of the listing
    service end before discovery does.  The events of [buildConfig] (its
    [git] commands and its log lines, interleaved as the loop produces
    them) come after those of [filterRepos] and before the write. *)
Definition main (mf : MainFlags) (w : World) : option (list Event) :=
  let flags := helperFlags mf in
  match main_ignorelist mf w with
  | Err err =>
      Some (fatal ("loading " +:+ flagIgnorelist mf +:+ ": " +:+ err))
  | Ok ignorelist =>
  match gitlab_NewClient w (flagGitlabToken flags) (flagApiBaseUrl mf) with
  | Some err => Some (fatal ("creating gitlab client: " +:+ err))
  | None =>
  match loadRepos flags (flagGroups mf) (gitlab_answers w) with
  | None => None
  | Some (Err err, sent, _) => Some (map Sent sent ++ fatal err)
  | Some (Ok repos, sent, _) =>
      let '(repos, filterLog) :=
        filterRepos repos ignorelist (negb (flagForks flags))
          (negb (flagArchived flags)) in
      let repos := sort_Sort w repos in
      let '(config, _) :=
        buildConfig flags (git_Run w) (flagName mf) (flagRepoDir mf) repos
          (flagRevision mf) in
      let before :=
        map Sent sent ++ map Logged filterLog
        ++ buildConfig_trace flags (git_Run w) (flagRepoDir mf) (flagRevision mf) repos in
      match config with
      | Err err => Some (before ++ fatal err)
      | Ok config =>
          let configPath := path.Join [flagRepoDir mf; "livegrep.json"] in
          match writeConfig w config configPath with
          | (calls, Some err) => Some (before ++ calls ++ fatal err)
          | (calls, None) =>
              let index := flagIndexPath mf in
              let args := main_args mf index configPath in
              let fetchReindex :=
                if String.eqb (flagFetchReindex mf) ""
                then findBinary (os_Stat w) (os_Args0 w) "livegrep-fetch-reindex"
                else flagFetchReindex mf in
              let env := main_env mf w in
              Some (before ++ calls
                    ++ [Logged ("Running: " +:+ fetchReindex +:+ " ["
                                +:+ joinWith " " args +:+ "]");
                        Run fetchReindex args env]
                    ++ match cmd_Run w fetchReindex args env with
                       | Some err => fatal ("livegrep-fetch-reindex:  " +:+ err)
                       | None => []
                       end)
          end
      end
  end
  end
  end.

(** An event that changes the disk or runs a command. *)
Definition isEffect (ev : Event) : bool :=
  match ev with
  | Git _ | MkdirAll _ _ | WriteFile _ _ _ | Run _ _ _ => true
  | _ => false
  end.

Definition isSent (ev : Event) : bool :=
  match ev with
  | Sent _ => true
  | _ => false
  end.

Module worlds.

(** A sort that meets the contract of [sort.Sort] for [ReposByName]. *)
Definition sort (repos : list Project) : list Project := merge_sort pathLe repos.

(** A world in which everything goes well: no ignore list to read, the
    service lists two projects on one page, the disk takes the file, the
    reindexer exits with status zero. *)
Definition fine : World := {|
  ioutil_ReadFile := examples.fileSystem;
  gitlab_NewClient := λ _ _, None;
  gitlab_answers := [Page [examples.svc; examples.legacy] 0];
  git_Run := examples.allPresent;
  sort_Sort := sort;
  os_MkdirAll := λ _ _, None;
  ioutil_WriteFile := λ _ _ _, None;
  os_Args0 := "/opt/livegrep/bin/livegrep-gitlab-reindex";
  os_Stat := λ _, Ok 493%Z;
  os_Environ := ["PATH=/usr/bin"];
  cmd_Run := λ _ _ _, None
|}.

(** The same world with a service that fails on the second page. *)
Definition failing : World := {|
  ioutil_ReadFile := examples.fileSystem;
  gitlab_NewClient := λ _ _, None;
  gitlab_answers := [Page [examples.svc] 2; PageError "502 Bad Gateway"];
  git_Run := examples.allPresent;
  sort_Sort := sort;
  os_MkdirAll := λ _ _, None;
  ioutil_WriteFile := λ _ _ _, None;
  os_Args0 := "/opt/livegrep/bin/livegrep-gitlab-reindex";
  os_Stat := λ _, Ok 493%Z;
  os_Environ := ["PATH=/usr/bin"];
  cmd_Run := λ _ _ _, None
|}.

(** The flags at their defaults, with the directory [/repos]. *)
Definition flags : MainFlags := {|
  helperFlags := defaultFlags;
  flagCodesearch := "";
  flagFetchReindex := "";
  flagApiBaseUrl := "https://gitlab.example.com/api/v4";
  flagRepoDir := "/repos";
  flagIgnorelist := "";
  flagIndexPath := "/repos/livegrep.idx";
  flagRevision := "HEAD";
  flagName := "livegrep index";
  flagNumRepoUpdateWorkers := "8";
  flagRevparse := true;
  flagNoIndex := false;
  flagGroups := []
|}.

(** The same flags with skip-missing set, and a world in which the
    revision is missing in the local clone of [teamA/legacy] only. *)
Definition flagsSkipMissing : MainFlags := {|
  helperFlags := {|
    flagGitlabToken := "";
    flagUrlPattern := flagUrlPattern defaultFlags;
    flagForks := true;
    flagArchived := false;
    flagHTTP := false;
    flagHTTPUsername := "git";
    flagDepth := 0;
    flagSkipMissing := true |};
  flagCodesearch := "";
  flagFetchReindex := "";
  flagApiBaseUrl := "https://gitlab.example.com/api/v4";
  flagRepoDir := "/repos";
  flagIgnorelist := "";
  flagIndexPath := "/repos/livegrep.idx";
  flagRevision := "HEAD";
  flagName := "livegrep index";
  flagNumRepoUpdateWorkers := "8";
  flagRevparse := true;
  flagNoIndex := false;
  flagGroups := []
|}.

Definition legacyMissing : World := {|
  ioutil_ReadFile := examples.fileSystem;
  gitlab_NewClient := λ _ _, None;
  gitlab_answers := [Page [examples.svc; examples.legacy] 0];
  git_Run := λ _ args, negb (contains (joinWith " " args) "legacy");
  sort_Sort := sort;
  os_MkdirAll := λ _ _, None;
  ioutil_WriteFile := λ _ _ _, None;
  os_Args0 := "/opt/livegrep/bin/livegrep-gitlab-reindex";
  os_Stat := λ _, Ok 493%Z;
  os_Environ := ["PATH=/usr/bin"];
  cmd_Run := λ _ _ _, None
|}.

End worlds.

(** Names for what [main] computes on the way. *)
Definition main_configPath (mf : MainFlags) : string :=
  path.Join [flagRepoDir mf; "livegrep.json"].

Definition main_fetchReindex (mf : MainFlags) (w : World) : string :=
  if String.eqb (flagFetchReindex mf) ""
  then findBinary (os_Stat w) (os_Args0 w) "livegrep-fetch-reindex"
  else flagFetchReindex mf.

(** The discovered descriptors as they reach [buildConfig]: filtered, then
    sorted. *)
Definition main_repos (mf : MainFlags) (w : World) (repos : list Project)
    (ignorelist : option (gset string)) : list Project :=
  sort_Sort w
    (filterRepos repos ignorelist (negb (flagForks (helperFlags mf)))
       (negb (flagArchived (helperFlags mf)))).1.

(** An event of the stages before the specification is written: a request,
    a log line or a [git] command of the skip-missing check. *)
Definition isPrelude (ev : Event) : bool :=
  match ev with
  | Logged _ | Sent _ | Git _ => true
  | _ => false
  end.

(** The [git] commands of a run, by their arguments, and its log lines. *)
Definition gitCommands (trace : list Event) : list (list string) :=
  flat_map (λ ev, match ev with Git args => [args] | _ => [] end) trace.

Definition loggedLines (trace : list Event) : list string :=
  flat_map (λ ev, match ev with Logged line => [line] | _ => [] end) trace.

(** The events of [main] up to the end of [buildConfig], for the
    descriptors discovered. *)
Definition main_prelude (mf : MainFlags) (w : World) (repos : list Project)
    (sent : list Request) (ignorelist : option (gset string)) : list Event :=
  map Sent sent
  ++ map Logged (filterRepos repos ignorelist (negb (flagForks (helperFlags mf)))
                   (negb (flagArchived (helperFlags mf)))).2
  ++ buildConfig_trace (helperFlags mf) (git_Run w) (flagRepoDir mf)
       (flagRevision mf) (main_repos mf w repos ignorelist).

(** ** Clean names *)

(** A path element that [path.Clean] keeps as it is: not empty, not [.],
    not [..]. *)
Definition plainElement (e : string) : Prop := e ≠ "" ∧ e ≠ "." ∧ e ≠ "..".

(** A clean name: the elements between its slashes are all plain, so it has
    no slash at either end, no two slashes in a row and no [.] or [..]
    element (as the namespace-qualified paths of the hosting service). *)
Definition cleanName (p : string) : Prop :=
  Forall plainElement (strings_Split p path.slash).

(** The inner loop of [path.Clean] that copies one path element: the loop
    nested in [path.Clean_loop], by itself. *)
Definition Clean_copy (rooted : bool) (dotdot : nat)
    : list ascii → list ascii → list ascii :=
  fix copy (q : list ascii) (out : list ascii) {struct q} : list ascii :=
    match q with
    | [] => out
    | c' :: q' =>
        if path.isSlash c' then path.Clean_loop rooted q' out dotdot
        else copy q' (out ++ [c'])
    end.

(** The output with the slash that [path.Clean] adds before a path
    element, when it adds one. *)
Definition Clean_sep (rooted : bool) (out : list ascii) : list ascii :=
  if (rooted && negb (length out =? 1)%nat)
     || (negb rooted && negb (length out =? 0)%nat)
  then out ++ [path.slash] else out.

(** The bytes of a plain path element. *)
Definition plainChars (e : list ascii) : Prop :=
  e ≠ [] ∧ ¬ In path.slash e ∧ e ≠ [path.dot] ∧ e ≠ [path.dot; path.dot].

(** * Properties *)

#[local] Set Warnings "-clear-no-such-hyp".

(** ** The filter *)

Lemma filterRepos_body_out ignorelist ef ea out logged r :
  (filterRepos_body ignorelist ef ea (out, logged) r).1 =
  out ++ List.filter (kept ignorelist ef) [r].
Proof.
  assert (Hign : ∀ o : list Project,
    (match ignorelist with
     | Some m => if decide (PathWithNamespace r ∈ m) then (o, logged) else (o ++ [r], logged)
     | None => (o ++ [r], logged)
     end).1 =
    o ++ (if match ignorelist with
             | Some m => negb (bool_decide (PathWithNamespace r ∈ m))
             | None => true
             end
          then [r] else [])).
  { intros o. destruct ignorelist as [m|]; [|done].
    destruct (decide (PathWithNamespace r ∈ m)) as [Hin|Hin].
    - rewrite bool_decide_eq_true_2 by done. simpl. by rewrite app_nil_r.
    - by rewrite bool_decide_eq_false_2. }
  unfold filterRepos_body, kept, isFork; simpl.
  destruct ef, (ForkedFromProject r) as [parent|]; simpl;
    first [ by rewrite app_nil_r | apply Hign ].
Qed.

Lemma filterRepos_fold_out ignorelist ef ea repos st :
  (fold_left (filterRepos_body ignorelist ef ea) repos st).1 =
  st.1 ++ List.filter (kept ignorelist ef) repos.
Proof.
  revert st; induction repos as [|r repos IH]; intros [out logged].
  - simpl. by rewrite app_nil_r.
  - cbn [fold_left]. rewrite IH, filterRepos_body_out.
    cbn [fst List.filter].
    destruct (kept ignorelist ef r); by rewrite <- ?app_assoc, ?app_nil_r.
Qed.

(** The surviving descriptors are the input with the dropped ones removed,
    in discovery order. *)
Lemma filterRepos_out repos ignorelist ef ea :
  (filterRepos repos ignorelist ef ea).1 = List.filter (kept ignorelist ef) repos.
Proof. unfold filterRepos. by rewrite filterRepos_fold_out. Qed.

Lemma kept_spec ignorelist ef r :
  kept ignorelist ef r = true ↔
  (ef = true → ForkedFromProject r = None) ∧
  ¬ inIgnorelist ignorelist (PathWithNamespace r).
Proof.
  unfold kept, isFork, inIgnorelist.
  rewrite andb_true_iff, negb_true_iff, andb_false_iff.
  destruct ignorelist as [m|].
  - rewrite negb_true_iff, bool_decide_eq_false.
    destruct ef, (ForkedFromProject r); naive_solver.
  - destruct ef, (ForkedFromProject r); naive_solver.
Qed.

Lemma elem_of_filterRepos repos ignorelist ef ea r :
  r ∈ (filterRepos repos ignorelist ef ea).1 ↔
  r ∈ repos ∧ (ef = true → ForkedFromProject r = None) ∧
  ¬ inIgnorelist ignorelist (PathWithNamespace r).
Proof.
  rewrite filterRepos_out, !list_elem_of_In, filter_In, kept_spec. tauto.
Qed.

(** The flag [excludeArchived] is not read by the loop body. *)
Lemma filterRepos_body_archived ignorelist ef ea ea' st r :
  filterRepos_body ignorelist ef ea st r = filterRepos_body ignorelist ef ea' st r.
Proof. reflexivity. Qed.

(** The surviving descriptors keep their relative order. *)
Lemma filterRepos_sublist repos ignorelist ef ea :
  sublist (filterRepos repos ignorelist ef ea).1 repos.
Proof.
  rewrite filterRepos_out.
  induction repos as [|r repos IH]; simpl; [constructor|].
  destruct (kept ignorelist ef r); by constructor.
Qed.

(** ** The ignore list *)

Lemma ignoreSet_fold (lines : list string) (acc : gset string) :
  fold_left (λ (out : gset string) l, {[ l ]} ∪ out) lines acc = list_to_set lines ∪ acc.
Proof.
  revert acc; induction lines as [|l lines IH]; intros acc; simpl.
  - set_solver.
  - rewrite IH. set_solver.
Qed.

Lemma loadIgnorelist_ok fs path data :
  fs path = Ok data →
  loadIgnorelist fs path = Ok (list_to_set (strings_Split data newline)).
Proof.
  intros Hread. unfold loadIgnorelist. rewrite Hread, ignoreSet_fold.
  f_equal. set_solver.
Qed.

Lemma loadIgnorelist_err fs path e :
  fs path = Err e → loadIgnorelist fs path = Err e.
Proof. intros Hread. unfold loadIgnorelist. by rewrite Hread. Qed.

Lemma strings_Split_nonempty s sep : strings_Split s sep ≠ [].
Proof.
  destruct s as [|c s]; simpl; [done|].
  destruct (Ascii.eqb c sep); [done|].
  by destruct (strings_Split s sep).
Qed.

Lemma joinWith_cons_char sep c l ls :
  joinWith sep (String c l :: ls) = String c (joinWith sep (l :: ls)).
Proof. by destruct ls. Qed.

(** Joining the lines with the separator gives back the text. *)
Lemma strings_Split_join s sep :
  joinWith (String sep "") (strings_Split s sep) = s.
Proof.
  induction s as [|c s IH]; [done|].
  pose proof (strings_Split_nonempty s sep) as Hne.
  cbn [strings_Split].
  destruct (strings_Split s sep) as [|l ls] eqn:E; [done|].
  destruct (Ascii.eqb_spec c sep) as [->|Hc].
  - change (joinWith (String sep "") ("" :: l :: ls))
      with (String sep (joinWith (String sep "") (l :: ls))).
    by rewrite IH.
  - by rewrite joinWith_cons_char, IH.
Qed.

(** No line holds the separator. *)
Lemma strings_Split_lines s sep :
  Forall (noSeparator sep) (strings_Split s sep).
Proof.
  induction s as [|c s IH]; simpl.
  - constructor; [|constructor]. by intros [].
  - destruct (Ascii.eqb_spec c sep) as [->|Hc].
    + constructor; [by intros [] | done].
    + destruct (strings_Split s sep) as [|l ls]; simpl.
      * constructor; [|constructor]. intros [?|[]]. congruence.
      * inversion IH as [|? ? Hl Hls]; subst. constructor; [|done].
        intros [?|?]; [congruence | by apply Hl].
Qed.

(** The loop body depends on the ignore list only through the membership of
    the descriptor's own path. *)
Lemma filterRepos_body_ext (I I' : gset string) ef ea st r :
  (PathWithNamespace r ∈ I ↔ PathWithNamespace r ∈ I') →
  filterRepos_body (Some I) ef ea st r = filterRepos_body (Some I') ef ea st r.
Proof.
  intros Hiff. unfold filterRepos_body. destruct st as [out logged].
  destruct ef, (ForkedFromProject r); try done;
    destruct (decide (PathWithNamespace r ∈ I)), (decide (PathWithNamespace r ∈ I'));
    tauto.
Qed.

Lemma filterRepos_fold_ext (I I' : gset string) ef ea repos st :
  Forall (λ r, PathWithNamespace r ∈ I ↔ PathWithNamespace r ∈ I') repos →
  fold_left (filterRepos_body (Some I) ef ea) repos st =
  fold_left (filterRepos_body (Some I') ef ea) repos st.
Proof.
  intros Hall. revert st.
  induction Hall as [|r repos Hr _ IH]; intros st; simpl; [done|].
  by rewrite (filterRepos_body_ext I I'), IH.
Qed.

(** ** Claims about the filter and the ignore list *)

(** C1: for every ignore set I and every descriptor collection, the output
    of the filter holds no descriptor whose namespace-qualified path is a
    member of I (whatever the two flags are). *)
Theorem filterRepos_excludes_ignored (repos : list Project) (I : gset string)
    (excludeForks excludeArchived : bool) :
  Forall (λ r, PathWithNamespace r ∉ I)
         (filterRepos repos (Some I) excludeForks excludeArchived).1.
Proof.
  apply Forall_forall. intros r Hr.
  apply elem_of_filterRepos in Hr as (_ & _ & Hnot). exact Hnot.
Qed.

(** C5: with exclude-forks set, a descriptor that carries a fork-parent
    reference is never in the output of the filter, whether or not an ignore
    list is given and whatever it holds. *)
Theorem filterRepos_excludes_forks (repos : list Project)
    (ignorelist : option (gset string)) (excludeArchived : bool) (r : Project) :
  ForkedFromProject r ≠ None →
  r ∉ (filterRepos repos ignorelist true excludeArchived).1.
Proof.
  intros Hfork Hr.
  apply elem_of_filterRepos in Hr as (_ & Hnofork & _). by apply Hfork, Hnofork.
Qed.

Lemma filterRepos_excludes_forks_witness :
  examples.legacy ∉
    (filterRepos [examples.svc; examples.legacy] None true false).1.
Proof.
  apply (filterRepos_excludes_forks [examples.svc; examples.legacy] None false
           examples.legacy).
  discriminate.
Defined.

(** C7: the filter gives the same descriptors and the same log lines
    whether its exclude-archived argument is true or false; what decides
    that a descriptor of the input survives is its fork-parent reference and
    its path only, never its archived status. *)
Theorem filterRepos_excludeArchived_unused (repos : list Project)
    (ignorelist : option (gset string)) (excludeForks : bool) :
  filterRepos repos ignorelist excludeForks true =
  filterRepos repos ignorelist excludeForks false
  ∧ ∀ r, r ∈ (filterRepos repos ignorelist excludeForks true).1 ↔
         r ∈ repos
         ∧ (excludeForks = true → ForkedFromProject r = None)
         ∧ ¬ inIgnorelist ignorelist (PathWithNamespace r).
Proof.
  split.
  - unfold filterRepos. f_equal.
  - intros r. apply elem_of_filterRepos.
Qed.

(** An archived repository passes the filter even when exclude-archived is
    asked for. *)
Example filterRepos_keeps_archived :
  Archived examples.legacy = true ∧
  (filterRepos [examples.legacy] None false true).1 = [examples.legacy].
Proof. split; reflexivity. Qed.

(** C8, as stated, fails: the file [ignoreFile] ends with an empty line,
    and that line excludes the descriptor whose path is the empty string;
    without the empty line the descriptor is kept. *)
Lemma empty_line_excludes_empty_path :
  loadIgnorelist examples.fileSystem "ignore.txt"
    = Ok (list_to_set ["teamA/svc"; ""])
  ∧ (filterRepos [examples.unnamed] (Some (list_to_set ["teamA/svc"; ""])) false false).1
    = []
  ∧ (filterRepos [examples.unnamed] (Some (list_to_set ["teamA/svc"])) false false).1
    = [examples.unnamed].
Proof.
  split;
    [exact (loadIgnorelist_ok examples.fileSystem "ignore.txt" examples.ignoreFile eq_refl)|].
  rewrite !filterRepos_out. unfold kept. simpl.
  split.
  - rewrite bool_decide_eq_true_2; [done | set_solver].
  - rewrite bool_decide_eq_false_2; [done | set_solver].
Qed.

Lemma filterRepos_fold_log_any ignorelist ignorelist' ef ea repos :
  ∀ st st' : filterState, st.2 = st'.2 →
  (fold_left (filterRepos_body ignorelist ef ea) repos st).2 =
  (fold_left (filterRepos_body ignorelist' ef ea) repos st').2.
Proof.
  induction repos as [|r repos IH]; intros [out logged] [out' logged'] Hlog;
    simpl in Hlog; subst; [done|].
  cbn [fold_left]. apply IH. unfold filterRepos_body.
  destruct ef, (ForkedFromProject r); try done;
    destruct ignorelist as [m|], ignorelist' as [m'|]; try done;
    repeat (destruct (decide _)); done.
Qed.

Lemma filter_filter_and {A} (f g : A → bool) (l : list A) :
  List.filter g (List.filter f l) = List.filter (λ x, f x && g x) l.
Proof.
  induction l as [|x l IH]; [done|]. simpl.
  destruct (f x); simpl; [|done]. destruct (g x); by rewrite IH.
Qed.

(** What the identifier [""] of the ignore set does to the decision for one
    descriptor: nothing, unless the path of the descriptor is empty. *)
Lemma kept_without_empty (I : gset string) ef r :
  kept (Some I) ef r =
  kept (Some (I ∖ {[ "" ]})) ef r
  && negb (String.eqb (PathWithNamespace r) "" && bool_decide ("" ∈ I)).
Proof.
  unfold kept. rewrite <- andb_assoc. f_equal.
  destruct (String.eqb_spec (PathWithNamespace r) "") as [->|Hne].
  - rewrite (bool_decide_eq_false_2 ("" ∈ I ∖ {[ "" ]})) by set_solver. done.
  - rewrite (bool_decide_ext (PathWithNamespace r ∈ I ∖ {[ "" ]})
               (PathWithNamespace r ∈ I)) by set_solver.
    by rewrite andb_true_r.
Qed.

(** C8, amended: an empty line of the ignore-list file is loaded as the
    identifier [""], and it excludes exactly the descriptors whose
    namespace-qualified path is the empty string: for every collection, the
    output of the filter with the loaded set is its output with the set of
    the non-empty lines, less the descriptors of empty path when the file
    has an empty line.  So for every descriptor with a non-empty path, in
    whatever collection, the empty lines change nothing; and they change
    nothing at all for a collection of such descriptors.  The log is the
    same in every case. *)
Theorem empty_lines_exclude_no_named_repo (fs : FileSystem) (path data : string) :
  fs path = Ok data →
  ∃ I : gset string,
    loadIgnorelist fs path = Ok I
    ∧ I ∖ {[ "" ]} =
      list_to_set (List.filter (λ l, negb (String.eqb l "")) (strings_Split data newline))
    ∧ ("" ∈ I ↔ "" ∈ strings_Split data newline)
    ∧ ∀ (repos : list Project) (excludeForks excludeArchived : bool),
        (filterRepos repos (Some I) excludeForks excludeArchived).1
        = List.filter
            (λ r, negb (String.eqb (PathWithNamespace r) "" && bool_decide ("" ∈ I)))
            (filterRepos repos (Some (I ∖ {[ "" ]})) excludeForks excludeArchived).1
        ∧ (filterRepos repos (Some I) excludeForks excludeArchived).2
          = (filterRepos repos (Some (I ∖ {[ "" ]})) excludeForks excludeArchived).2
        ∧ (∀ r,
             r ∈ (filterRepos repos (Some I) excludeForks excludeArchived).1 ↔
             r ∈ (filterRepos repos (Some (I ∖ {[ "" ]})) excludeForks excludeArchived).1
             ∧ ¬ (PathWithNamespace r = "" ∧ "" ∈ I))
        ∧ (∀ r,
             PathWithNamespace r ≠ "" →
             (r ∈ (filterRepos repos (Some I) excludeForks excludeArchived).1 ↔
              r ∈ (filterRepos repos (Some (I ∖ {[ "" ]}))
                     excludeForks excludeArchived).1))
        ∧ (Forall (λ r, PathWithNamespace r ≠ "") repos →
           filterRepos repos (Some I) excludeForks excludeArchived =
           filterRepos repos (Some (I ∖ {[ "" ]})) excludeForks excludeArchived).
Proof.
  intros Hread.
  exists (list_to_set (strings_Split data newline)).
  set (I := list_to_set (strings_Split data newline) : gset string).
  split; [by apply loadIgnorelist_ok|]. split.
  { apply set_eq. intros l. unfold I.
    rewrite elem_of_difference, !elem_of_list_to_set, !list_elem_of_In, filter_In.
    rewrite negb_true_iff, String.eqb_neq. set_solver. }
  split; [apply elem_of_list_to_set|].
  intros repos ef ea.
  assert (Hmem : ∀ r,
    r ∈ (filterRepos repos (Some I) ef ea).1 ↔
    r ∈ (filterRepos repos (Some (I ∖ {[ "" ]})) ef ea).1
    ∧ ¬ (PathWithNamespace r = "" ∧ "" ∈ I)).
  { intros r. rewrite !elem_of_filterRepos. simpl.
    split.
    - intros (Hin & Hfork & Hnot). repeat split; [done..|set_solver|].
      intros [Hempty HI]. apply Hnot. by rewrite Hempty.
    - intros ((Hin & Hfork & Hnot) & Hempty). repeat split; [done..|].
      intros HI. destruct (decide (PathWithNamespace r = "")) as [Heq|Hne].
      + apply Hempty. split; [done|]. by rewrite <- Heq.
      + apply Hnot. set_solver. }
  split; [|split; [|split; [exact Hmem|split]]].
  - rewrite !filterRepos_out, filter_filter_and.
    apply List.filter_ext. intros r. apply kept_without_empty.
  - unfold filterRepos. by apply filterRepos_fold_log_any.
  - intros r Hne. rewrite Hmem. tauto.
  - intros Hnamed. unfold filterRepos. apply filterRepos_fold_ext.
    eapply Forall_impl; [exact Hnamed|]. intros r Hr. simpl in Hr. set_solver.
Qed.

Lemma empty_lines_exclude_no_named_repo_witness :
  ∃ I : gset string,
    loadIgnorelist examples.fileSystem "ignore.txt" = Ok I
    ∧ I ∖ {[ "" ]} =
      list_to_set (List.filter (λ l, negb (String.eqb l ""))
                     (strings_Split examples.ignoreFile newline))
    ∧ ("" ∈ I ↔ "" ∈ strings_Split examples.ignoreFile newline)
    ∧ ∀ (repos : list Project) (excludeForks excludeArchived : bool),
        (filterRepos repos (Some I) excludeForks excludeArchived).1
        = List.filter
            (λ r, negb (String.eqb (PathWithNamespace r) "" && bool_decide ("" ∈ I)))
            (filterRepos repos (Some (I ∖ {[ "" ]})) excludeForks excludeArchived).1
        ∧ (filterRepos repos (Some I) excludeForks excludeArchived).2
          = (filterRepos repos (Some (I ∖ {[ "" ]})) excludeForks excludeArchived).2
        ∧ (∀ r,
             r ∈ (filterRepos repos (Some I) excludeForks excludeArchived).1 ↔
             r ∈ (filterRepos repos (Some (I ∖ {[ "" ]})) excludeForks excludeArchived).1
             ∧ ¬ (PathWithNamespace r = "" ∧ "" ∈ I))
        ∧ (∀ r,
             PathWithNamespace r ≠ "" →
             (r ∈ (filterRepos repos (Some I) excludeForks excludeArchived).1 ↔
              r ∈ (filterRepos repos (Some (I ∖ {[ "" ]}))
                     excludeForks excludeArchived).1))
        ∧ (Forall (λ r, PathWithNamespace r ≠ "") repos →
           filterRepos repos (Some I) excludeForks excludeArchived =
           filterRepos repos (Some (I ∖ {[ "" ]})) excludeForks excludeArchived).
Proof.
  apply (empty_lines_exclude_no_named_repo examples.fileSystem "ignore.txt"
           examples.ignoreFile).
  reflexivity.
Defined.

(** In a collection with a descriptor of empty path and a named one, the
    empty line drops the first and keeps the second. *)
Example empty_line_in_mixed_collection :
  (filterRepos [examples.unnamed; examples.legacy]
     (Some (list_to_set ["teamA/svc"; ""])) false false).1 = [examples.legacy]
  ∧ (filterRepos [examples.unnamed; examples.legacy]
       (Some (list_to_set ["teamA/svc"])) false false).1
    = [examples.unnamed; examples.legacy].
Proof.
  rewrite !filterRepos_out. unfold kept. simpl.
  rewrite (bool_decide_eq_true_2 ("" ∈ _)) by set_solver.
  rewrite !(bool_decide_eq_false_2 ("teamA/legacy" ∈ _)) by set_solver.
  rewrite (bool_decide_eq_false_2 ("" ∈ _)) by set_solver.
  done.
Qed.

(** C10: the loaded ignore set is the set of the lines of the file as
    [strings.Split] cuts them at newlines: joined by newlines they give the
    file back byte for byte (nothing is trimmed), and no line holds a
    newline.  A descriptor of the input passes the ignore check exactly when
    its path equals none of these lines. *)
Theorem loadIgnorelist_lines_verbatim (fs : FileSystem) (path data : string) :
  fs path = Ok data →
  joinWith (String newline "") (strings_Split data newline) = data
  ∧ Forall (noSeparator newline) (strings_Split data newline)
  ∧ ∃ I : gset string,
      loadIgnorelist fs path = Ok I
      ∧ (∀ l, l ∈ I ↔ l ∈ strings_Split data newline)
      ∧ ∀ repos excludeForks excludeArchived r,
          r ∈ (filterRepos repos (Some I) excludeForks excludeArchived).1 ↔
          r ∈ repos
          ∧ (excludeForks = true → ForkedFromProject r = None)
          ∧ PathWithNamespace r ∉ strings_Split data newline.
Proof.
  intros Hread.
  split; [apply strings_Split_join|]. split; [apply strings_Split_lines|].
  exists (list_to_set (strings_Split data newline)).
  split; [by apply loadIgnorelist_ok|]. split.
  - intros l. apply elem_of_list_to_set.
  - intros repos ef ea r. rewrite elem_of_filterRepos. simpl.
    by rewrite elem_of_list_to_set.
Qed.

Lemma loadIgnorelist_lines_verbatim_witness :
  joinWith (String newline "") (strings_Split examples.ignoreFile newline)
    = examples.ignoreFile
  ∧ Forall (noSeparator newline) (strings_Split examples.ignoreFile newline)
  ∧ ∃ I : gset string,
      loadIgnorelist examples.fileSystem "ignore.txt" = Ok I
      ∧ (∀ l, l ∈ I ↔ l ∈ strings_Split examples.ignoreFile newline)
      ∧ ∀ repos excludeForks excludeArchived r,
          r ∈ (filterRepos repos (Some I) excludeForks excludeArchived).1 ↔
          r ∈ repos
          ∧ (excludeForks = true → ForkedFromProject r = None)
          ∧ PathWithNamespace r ∉ strings_Split examples.ignoreFile newline.
Proof.
  apply (loadIgnorelist_lines_verbatim examples.fileSystem "ignore.txt"
           examples.ignoreFile).
  reflexivity.
Defined.

(** A carriage return before the newline stays in the line: the entry
    [teamA/svc] of a file with CR LF line ends does not match the path. *)
Example loadIgnorelist_keeps_carriage_return :
  strings_Split ("teamA/svc" +:+ String "013" (String newline "")) newline
  = ["teamA/svc" +:+ String "013" ""; ""].
Proof. reflexivity. Qed.

(** ** Discovery *)

Lemma lastPages_app pre post :
  lastPages (pre ++ post) = lastPages pre + lastPages post.
Proof. unfold lastPages. by rewrite List.filter_app, length_app. Qed.

(** Pages that are not the last of their listing are consumed one after the
    other, their items accumulated. *)
Lemma fetchPages_more mk pre :
  Forall (λ a, isPage a = true) pre → lastPages pre = 0 →
  ∀ page projects sent tail,
  ∃ page' sent',
    fetchPages mk page projects sent (pre ++ tail) =
    fetchPages mk page' (projects ++ concat (map pageItems pre)) sent' tail.
Proof.
  induction 1 as [|a pre Ha _ IH]; intros Hlast page projects sent tail.
  - exists page, sent. simpl. by rewrite app_nil_r.
  - destruct a as [ps next|e]; [|done].
    unfold lastPages in Hlast. simpl in Hlast.
    destruct (bool_decide_reflect (next = 0%Z)) as [Hz|Hnz]; [done|].
    destruct (IH Hlast next (projects ++ ps) (sent ++ [mk page]) tail)
      as (page' & sent' & Heq).
    exists page', sent'. simpl.
    destruct (decide (next = 0%Z)); [done|].
    rewrite Heq. by rewrite app_assoc.
Qed.

Lemma fetchPages_error mk pre e rest page projects sent :
  Forall (λ a, isPage a = true) pre → lastPages pre = 0 →
  ∃ sent', fetchPages mk page projects sent (pre ++ PageError e :: rest) =
           Some (Err e, sent', rest).
Proof.
  intros Hpages Hlast.
  destruct (fetchPages_more mk pre Hpages Hlast page projects sent (PageError e :: rest))
    as (page' & sent' & ->).
  by eexists.
Qed.

Lemma fetchPages_last mk pre ps rest page projects sent :
  Forall (λ a, isPage a = true) pre → lastPages pre = 0 →
  ∃ sent', fetchPages mk page projects sent (pre ++ Page ps 0 :: rest) =
           Some (Ok (projects ++ concat (map pageItems pre) ++ ps), sent', rest).
Proof.
  intros Hpages Hlast.
  destruct (fetchPages_more mk pre Hpages Hlast page projects sent (Page ps 0 :: rest))
    as (page' & sent' & ->).
  simpl. eexists. by rewrite app_assoc.
Qed.

Lemma fetchPages_pending mk pre page projects sent :
  Forall (λ a, isPage a = true) pre → lastPages pre = 0 →
  fetchPages mk page projects sent pre = None.
Proof.
  intros Hpages Hlast.
  destruct (fetchPages_more mk pre Hpages Hlast page projects sent [])
    as (page' & sent' & Heq).
  rewrite app_nil_r in Heq. by rewrite Heq.
Qed.

(** A run of pages with a last page in it splits at the first one. *)
Lemma split_first_last pre :
  Forall (λ a, isPage a = true) pre → 0 < lastPages pre →
  ∃ pre1 ps pre2,
    pre = pre1 ++ Page ps 0 :: pre2
    ∧ Forall (λ a, isPage a = true) pre1 ∧ lastPages pre1 = 0
    ∧ Forall (λ a, isPage a = true) pre2
    ∧ lastPages pre = S (lastPages pre2).
Proof.
  induction 1 as [|a pre Ha Hpre IH]; intros Hpos.
  - unfold lastPages in Hpos; simpl in Hpos; lia.
  - destruct a as [ps next|e]; [|done].
    destruct (decide (next = 0%Z)) as [->|Hnz].
    + exists [], ps, pre. repeat split; auto.
    + assert (Hsame : lastPages (Page ps next :: pre) = lastPages pre).
      { unfold lastPages. simpl. by rewrite bool_decide_eq_false_2. }
      rewrite Hsame in Hpos.
      destruct (IH Hpos) as (pre1 & ps' & pre2 & -> & H1 & Hl1 & H2 & Hcount).
      exists (Page ps next :: pre1), ps', pre2. repeat split; auto.
      * unfold lastPages in *. simpl. by rewrite bool_decide_eq_false_2.
      * by rewrite Hsame.
Qed.

Lemma fetchGroups_error groups : ∀ pre e rest projects sent,
  Forall (λ a, isPage a = true) pre → lastPages pre < length groups →
  ∃ sent', fetchGroups groups projects sent (pre ++ PageError e :: rest) =
           Some (Err e, sent', rest).
Proof.
  induction groups as [|g groups IH]; intros pre e rest projects sent Hpages Hlt;
    simpl in Hlt; [lia|].
  cbn [fetchGroups].
  destruct (decide (lastPages pre = 0)) as [Hzero|Hpos].
  - destruct (fetchPages_error (λ page, ListGroupProjects g 100 page) pre e rest 1
                projects sent Hpages Hzero) as (sent' & ->).
    by eexists.
  - destruct (split_first_last pre Hpages ltac:(lia))
      as (pre1 & ps & pre2 & -> & H1 & Hl1 & H2 & Hcount).
    rewrite <- app_assoc. cbn [app].
    destruct (fetchPages_last (λ page, ListGroupProjects g 100 page) pre1 ps
                (pre2 ++ PageError e :: rest) 1 projects sent H1 Hl1) as (sent' & ->).
    apply IH; [done | lia].
Qed.

Lemma fetchGroups_complete groups : ∀ pre ps rest projects sent,
  Forall (λ a, isPage a = true) pre → S (lastPages pre) = length groups →
  ∃ sent', fetchGroups groups projects sent (pre ++ Page ps 0 :: rest) =
           Some (Ok (projects ++ concat (map pageItems pre) ++ ps), sent', rest).
Proof.
  induction groups as [|g groups IH]; intros pre ps rest projects sent Hpages Hcount;
    simpl in Hcount; [lia|].
  cbn [fetchGroups].
  destruct (decide (lastPages pre = 0)) as [Hzero|Hpos].
  - destruct (fetchPages_last (λ page, ListGroupProjects g 100 page) pre ps rest 1
                projects sent Hpages Hzero) as (sent' & ->).
    destruct groups; [|simpl in Hcount; lia]. by eexists.
  - destruct (split_first_last pre Hpages ltac:(lia))
      as (pre1 & ps1 & pre2 & -> & H1 & Hl1 & H2 & Hsplit).
    rewrite <- app_assoc. cbn [app].
    destruct (fetchPages_last (λ page, ListGroupProjects g 100 page) pre1 ps1
                (pre2 ++ Page ps 0 :: rest) 1 projects sent H1 Hl1) as (sent' & ->).
    destruct (IH pre2 ps rest (projects ++ concat (map pageItems pre1) ++ ps1) sent' H2
                ltac:(lia)) as (sent'' & ->).
    exists sent''. do 2 f_equal. f_equal.
    rewrite map_app, concat_app. simpl. by rewrite <- !app_assoc.
Qed.

Lemma fetchGroups_pending groups : ∀ pre projects sent,
  Forall (λ a, isPage a = true) pre → lastPages pre < length groups →
  fetchGroups groups projects sent pre = None.
Proof.
  induction groups as [|g groups IH]; intros pre projects sent Hpages Hlt;
    simpl in Hlt; [lia|].
  cbn [fetchGroups].
  destruct (decide (lastPages pre = 0)) as [Hzero|Hpos].
  - by rewrite fetchPages_pending.
  - destruct (split_first_last pre Hpages ltac:(lia))
      as (pre1 & ps1 & pre2 & -> & H1 & Hl1 & H2 & Hsplit).
    destruct (fetchPages_last (λ page, ListGroupProjects g 100 page) pre1 ps1
                pre2 1 projects sent H1 Hl1) as (sent' & ->).
    apply IH; [done | lia].
Qed.

(** While the service has only given pages and not yet the last page of
    every listing, discovery is still waiting for an answer: [None] stands
    for a sequence of answers that ends too early, and for nothing else. *)
Lemma loadRepos_pending flags groups answers :
  Forall (λ a, isPage a = true) answers → lastPages answers < listings groups →
  loadRepos flags groups answers = None.
Proof.
  intros Hpages Hlt. unfold loadRepos.
  destruct groups as [|g groups].
  - simpl in *. apply fetchPages_pending; [done | lia].
  - destruct (decide _) as [_|Hlen]; [|simpl in Hlen; lia].
    by apply fetchGroups_pending.
Qed.

(** C9: take any sequence of answers of the listing service.  If an error
    comes before the last page of every listing has been seen, [loadRepos]
    returns that error and no collection, whatever the earlier pages held.
    If the answers up to the last page of the last listing are all pages,
    [loadRepos] returns the items of all of them, concatenated in order: it
    goes on to the next page of a listing until [NextPage] is zero, once for
    each group (or once for the listing of everything accessible). *)
Theorem loadRepos_pages (flags : Flags) (groups : list string)
    (pre rest : list PageResponse) :
  Forall (λ a, isPage a = true) pre →
  (∀ e, lastPages pre < listings groups →
        ∃ sent, loadRepos flags groups (pre ++ PageError e :: rest) =
                Some (Err e, sent, rest))
  ∧ (∀ ps, S (lastPages pre) = listings groups →
        ∃ sent, loadRepos flags groups (pre ++ Page ps 0 :: rest) =
                Some (Ok (concat (map pageItems pre) ++ ps), sent, rest)).
Proof.
  intros Hpages. unfold loadRepos. split.
  - intros e Hlt. destruct groups as [|g groups].
    + simpl in *. apply fetchPages_error; [done | lia].
    + destruct (decide _) as [_|Hlen]; [|simpl in Hlen; lia].
      by apply fetchGroups_error.
  - intros ps Hcount. destruct groups as [|g groups].
    + simpl in *.
      destruct (fetchPages_last (λ page, ListProjects (flagArchived flags) 100 page)
                  pre ps rest 1 [] [] Hpages ltac:(lia)) as (sent' & ->).
      by eexists.
    + destruct (decide _) as [_|Hlen]; [|simpl in Hlen; lia].
      destruct (fetchGroups_complete (g :: groups) pre ps rest [] [] Hpages Hcount)
        as (sent' & ->).
      by eexists.
Qed.

Lemma loadRepos_pages_witness :
  (∃ sent, loadRepos defaultFlags ["teamA"; "shared"]
             ([Page [examples.svc] 2; Page [examples.legacy] 0]
                ++ PageError "502 Bad Gateway" :: [])
           = Some (Err "502 Bad Gateway", sent, []))
  ∧ (∃ sent, loadRepos defaultFlags ["teamA"; "shared"]
               ([Page [examples.svc] 2; Page [examples.legacy] 0]
                  ++ Page [examples.svc] 0 :: [])
             = Some (Ok (concat (map pageItems
                                   [Page [examples.svc] 2; Page [examples.legacy] 0])
                         ++ [examples.svc]), sent, [])).
Proof.
  destruct (loadRepos_pages defaultFlags ["teamA"; "shared"]
              [Page [examples.svc] 2; Page [examples.legacy] 0] [])
    as [Herr Hok].
  - repeat constructor.
  - split.
    + apply (Herr "502 Bad Gateway"). vm_compute. lia.
    + apply (Hok [examples.svc]). reflexivity.
Defined.

(** The requests of such a run: page 1 of each group, then the page that the
    answer before named; the project listed under both groups comes twice. *)
Example loadRepos_requests :
  loadRepos defaultFlags ["teamA"; "shared"]
    [Page [examples.svc] 2; Page [examples.legacy] 0; Page [examples.svc] 0]
  = Some (Ok [examples.svc; examples.legacy; examples.svc],
          [ListGroupProjects "teamA" 100 1; ListGroupProjects "teamA" 100 2;
           ListGroupProjects "shared" 100 1],
          []).
Proof. reflexivity. Qed.

(** ** The builder *)

Lemma buildConfig_fold flags run dir revision repos : ∀ st : buildState,
  (fold_left (buildConfig_body flags run dir revision) repos st).1 =
  {| IndexName := IndexName st.1;
     Repositories := Repositories st.1
                     ++ map (repoSpecOf flags dir revision)
                            (verified flags run dir revision repos) |}.
Proof.
  induction repos as [|r repos IH]; intros [[name specs] logged].
  - simpl. by rewrite app_nil_r.
  - cbn [fold_left]. rewrite IH. unfold verified, buildConfig_body. cbn [List.filter].
    destruct (revisionMissing flags run dir revision r); simpl; [done|].
    by rewrite <- app_assoc.
Qed.

(** The specification built: the name given, and one record for each
    repository that was not skipped, in the order of the input. *)
Lemma buildConfig_cfg_spec flags run name dir repos revision :
  (buildConfig_cfg flags run name dir repos revision).1 =
  {| IndexName := name;
     Repositories := map (repoSpecOf flags dir revision)
                         (verified flags run dir revision repos) |}.
Proof. unfold buildConfig_cfg. by rewrite buildConfig_fold. Qed.

Lemma buildConfig_fold_log flags flags' run dir revision repos : ∀ st st' : buildState,
  flagSkipMissing flags = flagSkipMissing flags' → st.2 = st'.2 →
  (fold_left (buildConfig_body flags run dir revision) repos st).2 =
  (fold_left (buildConfig_body flags' run dir revision) repos st').2.
Proof.
  intros st st' Hskip. revert st st'.
  induction repos as [|r repos IH]; intros [cfg logged] [cfg' logged'] Hlog;
    simpl in Hlog; subst; [done|].
  cbn [fold_left]. apply IH. unfold buildConfig_body, revisionMissing.
  rewrite Hskip. by destruct (_ && _).
Qed.

Lemma buildConfig_serialized flags run name dir repos revision :
  (buildConfig flags run name dir repos revision).1 =
  json.MarshalIndent (buildConfig_cfg flags run name dir repos revision).1.
Proof.
  unfold buildConfig. by destruct (buildConfig_cfg flags run name dir repos revision).
Qed.

Lemma buildConfig_logged flags run name dir repos revision :
  (buildConfig flags run name dir repos revision).2 =
  (buildConfig_cfg flags run name dir repos revision).2.
Proof.
  unfold buildConfig. by destruct (buildConfig_cfg flags run name dir repos revision).
Qed.

Lemma verified_withToken flags token run dir revision repos :
  verified (withToken flags token) run dir revision repos =
  verified flags run dir revision repos.
Proof. reflexivity. Qed.

Lemma NoDup_map_filter {A B} (f : A → B) (p : A → bool) (l : list A) :
  NoDup (map f l) → NoDup (map f (List.filter p l)).
Proof.
  induction l as [|x l IH]; simpl; [done|].
  rewrite NoDup_cons. intros [Hx Hl].
  destruct (p x); simpl; [|by apply IH].
  apply NoDup_cons. split; [|by apply IH].
  intros Hin. apply Hx.
  apply list_elem_of_In, in_map_iff in Hin as (y & Hy & Hin).
  apply list_elem_of_In, in_map_iff. exists y. split; [done|].
  by apply filter_In in Hin as [? _].
Qed.

Lemma StronglySorted_filter {A} (R : relation A) (p : A → bool) (l : list A) :
  StronglySorted R l → StronglySorted R (List.filter p l).
Proof.
  induction 1 as [|x l Hl IH Hx]; simpl; [constructor|].
  destruct (p x); [|done].
  constructor; [done|].
  apply Forall_forall. intros y Hy%list_elem_of_In%filter_In.
  destruct Hy as [Hy _]. rewrite Forall_forall in Hx. by apply Hx, list_elem_of_In.
Qed.

Lemma Less_false_le a b :
  ReposByName_Less b a = false →
  String.le (PathWithNamespace a) (PathWithNamespace b).
Proof.
  unfold ReposByName_Less, String.le, String.ltb, String.leb.
  rewrite (String.compare_antisym (PathWithNamespace b) (PathWithNamespace a)).
  by destruct (String.compare (PathWithNamespace a) (PathWithNamespace b)).
Qed.

#[local] Instance pathLe_trans : Transitive pathLe.
Proof. intros a b c Hab Hbc. unfold pathLe in *. by etrans. Qed.

Lemma sortedByName_strongly repos :
  sortedByName repos → StronglySorted pathLe repos.
Proof.
  intros Hsorted. apply Sorted_StronglySorted; [apply _|].
  induction Hsorted as [|a l Hl IH Hhd]; constructor; [done|].
  destruct Hhd as [|b l Hab]; constructor. by apply Less_false_le.
Qed.

(** ** path.Clean on clean names *)

Lemma Clean_loop_unfold rooted c rest out dotdot :
  path.Clean_loop rooted (c :: rest) out dotdot =
  if path.isSlash c then path.Clean_loop rooted rest out dotdot
  else if path.isDot c && path.endOfElement rest
       then path.Clean_loop rooted rest out dotdot
  else
    let element := Clean_copy rooted dotdot rest (Clean_sep rooted out ++ [c]) in
    match rest with
    | c2 :: rest2 =>
        if path.isDot c && path.isDot c2 && path.endOfElement rest2 then
          if (dotdot <? length out)%nat then
            path.Clean_loop rooted rest2
              (take (path.backtrack out dotdot (length out - 1)) out) dotdot
          else if negb rooted then
            path.Clean_loop rooted rest2
              ((if (0 <? length out)%nat then out ++ [path.slash] else out)
                 ++ [path.dot; path.dot])
              (length ((if (0 <? length out)%nat then out ++ [path.slash] else out)
                         ++ [path.dot; path.dot]))
          else path.Clean_loop rooted rest2 out dotdot
        else element
    | [] => element
    end.
Proof. destruct rest; reflexivity. Qed.

Lemma Clean_copy_cons rooted dotdot c q out :
  Clean_copy rooted dotdot (c :: q) out =
  if path.isSlash c then path.Clean_loop rooted q out dotdot
  else Clean_copy rooted dotdot q (out ++ [c]).
Proof. reflexivity. Qed.

Lemma isSlash_false c : c ≠ path.slash → path.isSlash c = false.
Proof. intros Hne. unfold path.isSlash. by destruct (Ascii.eqb_spec c path.slash). Qed.

Lemma isSlash_slash : path.isSlash path.slash = true.
Proof. reflexivity. Qed.

(** Copying the rest of an element that holds no slash. *)
Lemma Clean_copy_element rooted dotdot e : ∀ out,
  ¬ In path.slash e →
  Clean_copy rooted dotdot e out = out ++ e
  ∧ ∀ rest, Clean_copy rooted dotdot (e ++ path.slash :: rest) out
            = path.Clean_loop rooted rest (out ++ e) dotdot.
Proof.
  induction e as [|c e IH]; intros out Hno.
  - split; [by rewrite app_nil_r|]. intros rest. simpl. by rewrite app_nil_r.
  - assert (Hc : path.isSlash c = false)
      by (apply isSlash_false; intros ->; apply Hno; by left).
    destruct (IH (out ++ [c]) ltac:(intros Hin; apply Hno; by right)) as [Hend Hmore].
    split.
    + rewrite Clean_copy_cons, Hc, Hend. by rewrite <- app_assoc.
    + intros rest. cbn [app]. rewrite Clean_copy_cons, Hc, Hmore.
      by rewrite <- app_assoc.
Qed.

(** A plain element is appended to the output, behind a slash when the
    output needs one. *)
Lemma Clean_loop_element rooted dotdot e out :
  plainChars e →
  path.Clean_loop rooted e out dotdot = Clean_sep rooted out ++ e
  ∧ ∀ rest, path.Clean_loop rooted (e ++ path.slash :: rest) out dotdot
            = path.Clean_loop rooted rest (Clean_sep rooted out ++ e) dotdot.
Proof.
  intros (Hne & Hno & Hdot & Hdotdot).
  destruct e as [|c e]; [done|].
  assert (Hc : path.isSlash c = false)
    by (apply isSlash_false; intros ->; apply Hno; by left).
  assert (Hno' : ¬ In path.slash e) by (intros Hin; apply Hno; by right).
  destruct (Clean_copy_element rooted dotdot e (Clean_sep rooted out ++ [c]) Hno')
    as [Hend Hmore].
  assert (Hhead : ∀ tail, tail = [] ∨ (∃ rest, tail = path.slash :: rest) →
    path.Clean_loop rooted (c :: e ++ tail) out dotdot =
    Clean_copy rooted dotdot (e ++ tail) (Clean_sep rooted out ++ [c])).
  { intros tail Htail. rewrite Clean_loop_unfold, Hc.
    assert (Hend1 : path.endOfElement tail = true)
      by (destruct Htail as [->|[rest ->]]; reflexivity).
    destruct e as [|c2 e].
    - (* one byte: not a dot *)
      assert (Hcdot : path.isDot c = false).
      { unfold path.isDot. destruct (Ascii.eqb_spec c path.dot) as [->|]; done. }
      rewrite Hcdot. cbn [andb app]. by destruct tail.
    - assert (Hc2 : path.isSlash c2 = false)
        by (apply isSlash_false; intros ->; apply Hno'; by left).
      cbn [app path.endOfElement]. rewrite Hc2, andb_false_r.
      destruct e as [|c3 e].
      + (* two bytes: not both dots *)
        assert (Hdots : path.isDot c && path.isDot c2 = false).
        { unfold path.isDot.
          destruct (Ascii.eqb_spec c path.dot) as [->|]; [|done].
          destruct (Ascii.eqb_spec c2 path.dot) as [->|]; done. }
        cbn [app]. by rewrite Hdots.
      + assert (Hc3 : path.isSlash c3 = false).
        { apply isSlash_false. intros ->. apply Hno'. right. by left. }
        cbn [app path.endOfElement]. by rewrite Hc3, andb_false_r. }
  split.
  - rewrite <- (app_nil_r e) at 1. rewrite (Hhead [] ltac:(by left)), app_nil_r, Hend.
    by rewrite <- app_assoc.
  - intros rest. cbn [app].
    rewrite (Hhead (path.slash :: rest) ltac:(right; by eexists)), Hmore.
    by rewrite <- app_assoc.
Qed.

Lemma Clean_sep_length (rooted : bool) (out : list ascii) :
  ((if rooted then 1 else 0) ≤ length (Clean_sep rooted out))%nat.
Proof.
  unfold Clean_sep. destruct rooted; [|lia].
  destruct (Nat.eqb_spec (length out) 1) as [Heq|Hne]; cbn [andb orb negb].
  - lia.
  - rewrite length_app. simpl. lia.
Qed.

Lemma Clean_sep_after (rooted : bool) (out e : list ascii) :
  e ≠ [] →
  Clean_sep rooted (Clean_sep rooted out ++ e) = (Clean_sep rooted out ++ e) ++ [path.slash].
Proof.
  intros Hne. pose proof (Clean_sep_length rooted out) as Hlen.
  assert (0 < length e)%nat by (destruct e; [done | simpl; lia]).
  generalize dependent (Clean_sep rooted out). intros sep Hlen.
  unfold Clean_sep. rewrite length_app.
  destruct rooted.
  - destruct (Nat.eqb_spec (length sep + length e) 1); [lia|done].
  - destruct (Nat.eqb_spec (length sep + length e) 0); [lia|done].
Qed.

Lemma list_ascii_of_string_app a b :
  list_ascii_of_string (a +:+ b) = list_ascii_of_string a ++ list_ascii_of_string b.
Proof.
  induction a as [|c a IH]; [done|].
  change (String c a +:+ b) with (String c (a +:+ b)). simpl. by rewrite IH.
Qed.

Lemma string_of_list_ascii_app l1 l2 :
  string_of_list_ascii (l1 ++ l2) = string_of_list_ascii l1 +:+ string_of_list_ascii l2.
Proof.
  induction l1 as [|c l1 IH]; [done|]. simpl. rewrite IH. done.
Qed.

(** The elements of a clean name, element by element. *)
Lemma Clean_loop_elements es : ∀ rooted out dotdot,
  es ≠ [] → Forall (λ e, plainChars (list_ascii_of_string e)) es →
  path.Clean_loop rooted
    (list_ascii_of_string (joinWith (String path.slash "") es)) out dotdot
  = Clean_sep rooted out ++ list_ascii_of_string (joinWith (String path.slash "") es).
Proof.
  induction es as [|e es IH]; intros rooted out dotdot Hne Hall; [done|].
  inversion Hall as [|? ? He Hes]; subst.
  destruct (Clean_loop_element rooted dotdot (list_ascii_of_string e) out He)
    as [Hend Hmore].
  destruct es as [|e2 es]; [exact Hend|].
  change (joinWith (String path.slash "") (e :: e2 :: es))
    with (e +:+ String path.slash "" +:+ joinWith (String path.slash "") (e2 :: es)).
  rewrite !list_ascii_of_string_app.
  change (list_ascii_of_string (String path.slash "")) with [path.slash]. cbn [app].
  rewrite Hmore, IH by done.
  rewrite Clean_sep_after by (by destruct He).
  rewrite <- !app_assoc. done.
Qed.

Lemma plainChars_of_element e :
  plainElement e → noSeparator path.slash e → plainChars (list_ascii_of_string e).
Proof.
  intros (Hne & Hdot & Hdotdot) Hno. repeat split.
  - by destruct e.
  - exact Hno.
  - intros Heq. apply Hdot.
    rewrite <- (string_of_list_ascii_of_string e), Heq. done.
  - intros Heq. apply Hdotdot.
    rewrite <- (string_of_list_ascii_of_string e), Heq. done.
Qed.

(** [path.Clean]'s loop leaves a clean name as it is, behind what is
    there. *)
Lemma Clean_loop_cleanName p rooted out dotdot :
  cleanName p →
  path.Clean_loop rooted (list_ascii_of_string p) out dotdot
  = Clean_sep rooted out ++ list_ascii_of_string p.
Proof.
  intros Hclean. unfold cleanName in Hclean.
  pose proof (Clean_loop_elements (strings_Split p path.slash) rooted out dotdot
                (strings_Split_nonempty p path.slash)) as Hloop.
  rewrite (strings_Split_join p path.slash) in Hloop. apply Hloop.
  pose proof (strings_Split_lines p path.slash) as Hlines.
  rewrite Forall_forall in Hclean, Hlines. apply Forall_forall. intros e He.
  apply plainChars_of_element; auto.
Qed.

Lemma endOfElement_prefix d p :
  path.endOfElement (d ++ path.slash :: p) = path.endOfElement (d ++ [path.slash]).
Proof. by destruct d. Qed.

(** Whatever comes before a slash is dealt with before what comes after it
    is looked at: the loop reaches the text behind the slash in a state that
    does not depend on that text. *)
Lemma Clean_prefix (n : nat) : ∀ d : list ascii, (length d ≤ n)%nat →
  (∀ rooted out dotdot, ∃ out' dotdot', ∀ p,
     path.Clean_loop rooted (d ++ path.slash :: p) out dotdot
     = path.Clean_loop rooted p out' dotdot')
  ∧ (∀ rooted out dotdot, ∃ out' dotdot', ∀ p,
       Clean_copy rooted dotdot (d ++ path.slash :: p) out
       = path.Clean_loop rooted p out' dotdot').
Proof.
  induction n as [|n IH]; intros d Hlen.
  - destruct d; [|simpl in Hlen; lia]. split; intros rooted out dotdot;
      exists out, dotdot; intros p; reflexivity.
  - destruct d as [|c d'].
    { split; intros rooted out dotdot; exists out, dotdot; intros p; reflexivity. }
    simpl in Hlen. destruct (IH d' ltac:(lia)) as [IHloop IHcopy].
    assert (Hcopy : ∀ rooted out dotdot, ∃ out' dotdot', ∀ p,
              Clean_copy rooted dotdot ((c :: d') ++ path.slash :: p) out
              = path.Clean_loop rooted p out' dotdot').
    { intros rooted out dotdot. destruct (path.isSlash c) eqn:Hc.
      - destruct (IHloop rooted out dotdot) as (out' & dotdot' & Heq).
        exists out', dotdot'. intros p. cbn [app].
        by rewrite Clean_copy_cons, Hc, Heq.
      - destruct (IHcopy rooted (out ++ [c]) dotdot) as (out' & dotdot' & Heq).
        exists out', dotdot'. intros p. cbn [app].
        by rewrite Clean_copy_cons, Hc, Heq. }
    split; [|exact Hcopy].
    intros rooted out dotdot.
    destruct (path.isSlash c) eqn:Hc.
    { destruct (IHloop rooted out dotdot) as (out' & dotdot' & Heq).
      exists out', dotdot'. intros p. cbn [app].
      by rewrite Clean_loop_unfold, Hc, Heq. }
    destruct (path.isDot c && path.endOfElement (d' ++ [path.slash])) eqn:Hdot.
    { destruct (IHloop rooted out dotdot) as (out' & dotdot' & Heq).
      exists out', dotdot'. intros p. cbn [app].
      by rewrite Clean_loop_unfold, Hc, endOfElement_prefix, Hdot, Heq. }
    destruct d' as [|c2 d''].
    { (* the element is the one byte [c] *)
      exists (Clean_sep rooted out ++ [c]), dotdot. intros p. cbn [app].
      assert (Hcdot : path.isDot c = false) by (by destruct (path.isDot c)).
      by rewrite Clean_loop_unfold, Hc, Hcdot. }
    simpl in Hlen. cbn [app path.endOfElement] in Hdot.
    destruct (path.isDot c && path.isDot c2
              && path.endOfElement (d'' ++ [path.slash])) eqn:Hdotdot.
    + (* a [..] element *)
      destruct (IH d'' ltac:(lia)) as [IHloop2 _].
      destruct (dotdot <? length out)%nat eqn:Hback.
      * destruct (IHloop2 rooted
                    (take (path.backtrack out dotdot (length out - 1)) out) dotdot)
          as (out' & dotdot' & Heq).
        exists out', dotdot'. intros p. cbn [app].
        rewrite Clean_loop_unfold, Hc. cbn [path.endOfElement].
        rewrite Hdot, (endOfElement_prefix d'' p), Hdotdot. cbn zeta.
        by rewrite Hback, Heq.
      * destruct rooted.
        -- destruct (IHloop2 true out dotdot) as (out' & dotdot' & Heq).
           exists out', dotdot'. intros p. cbn [app].
           rewrite Clean_loop_unfold, Hc. cbn [path.endOfElement].
           rewrite Hdot, (endOfElement_prefix d'' p), Hdotdot. cbn zeta.
           by rewrite Hback, Heq.
        -- destruct (IHloop2 false
                       ((if (0 <? length out)%nat then out ++ [path.slash] else out)
                          ++ [path.dot; path.dot])
                       (length
                          ((if (0 <? length out)%nat then out ++ [path.slash] else out)
                             ++ [path.dot; path.dot])))
             as (out' & dotdot' & Heq).
           exists out', dotdot'. intros p. cbn [app].
           rewrite Clean_loop_unfold, Hc. cbn [path.endOfElement].
           rewrite Hdot, (endOfElement_prefix d'' p), Hdotdot. cbn zeta.
           by rewrite Hback, Heq.
    + (* an element to copy *)
      destruct (IHcopy rooted (Clean_sep rooted out ++ [c]) dotdot)
        as (out' & dotdot' & Heq).
      exists out', dotdot'. intros p. cbn [app].
      rewrite Clean_loop_unfold, Hc. cbn [path.endOfElement].
      rewrite Hdot, (endOfElement_prefix d'' p), Hdotdot. cbn zeta.
      apply (Heq p).
Qed.

Lemma cleanName_head p :
  cleanName p →
  ∃ c rest, list_ascii_of_string p = c :: rest ∧ path.isSlash c = false.
Proof.
  unfold cleanName. destruct p as [|c p]; simpl.
  - intros Hall. inversion Hall as [|? ? [Hne _] _]. done.
  - fold (path.isSlash c). destruct (path.isSlash c) eqn:Hc.
    + intros Hall. inversion Hall as [|? ? [Hne _] _]. done.
    + intros _. by exists c, (list_ascii_of_string p).
Qed.

Lemma Clean_of_output s c rest out :
  list_ascii_of_string s = c :: rest →
  (if path.isSlash c then path.Clean_loop true rest [path.slash] 1
   else path.Clean_loop false (c :: rest) [] 0) = out →
  out ≠ [] →
  path.Clean s = string_of_list_ascii out.
Proof.
  intros Hs Hout Hne. unfold path.Clean. rewrite Hs, Hout. by destruct out.
Qed.

(** [path.Join] of a directory and a clean name is the name behind a prefix
    that the directory alone decides. *)
Lemma Join_cleanName dir :
  ∃ pre : string, ∀ p, cleanName p → path.Join [dir; p] = pre +:+ p.
Proof.
  assert (Hsize : ∀ p c rest, list_ascii_of_string p = c :: rest →
            (fold_left (λ size e, size + String.length e) [dir; p] 0 =? 0)%nat = false).
  { intros p c rest Hp. destruct p; [done|]. simpl. apply Nat.eqb_neq. lia. }
  destruct dir as [|c0 d0].
  - exists "". intros p Hclean.
    destruct (cleanName_head p Hclean) as (c & rest & Hp & Hc).
    unfold path.Join. rewrite (Hsize p c rest Hp).
    assert (Hbuf : fold_left
              (λ buf e,
                 if (0 <? String.length buf)%nat || negb (String.eqb e "")
                 then (if (0 <? String.length buf)%nat then buf +:+ "/" else buf) +:+ e
                 else buf) [""; p] "" = p).
    { by destruct p. }
    rewrite Hbuf.
    rewrite (Clean_of_output p c rest (list_ascii_of_string p) Hp).
    + by rewrite string_of_list_ascii_of_string.
    + rewrite Hc, <- Hp. by rewrite Clean_loop_cleanName.
    + by rewrite Hp.
  - set (rooted := path.isSlash c0).
    destruct (Clean_prefix (length (c0 :: list_ascii_of_string d0))
                (if rooted then list_ascii_of_string d0
                 else c0 :: list_ascii_of_string d0))
      as [Hloop _].
    { destruct rooted; simpl; lia. }
    destruct (Hloop rooted (if rooted then [path.slash] else [])
                (if rooted then 1 else 0)) as (out' & dotdot' & Heq).
    exists (string_of_list_ascii (Clean_sep rooted out')). intros p Hclean.
    destruct (cleanName_head p Hclean) as (c & rest & Hp & Hc).
    unfold path.Join.
    assert (Hsize' : (fold_left (λ size e, size + String.length e)
                        [String c0 d0; p] 0 =? 0)%nat = false) by done.
    rewrite Hsize'.
    assert (Hbuf : fold_left
              (λ buf e,
                 if (0 <? String.length buf)%nat || negb (String.eqb e "")
                 then (if (0 <? String.length buf)%nat then buf +:+ "/" else buf) +:+ e
                 else buf) [String c0 d0; p] "" = (String c0 d0 +:+ "/") +:+ p).
    { reflexivity. }
    rewrite Hbuf.
    rewrite (Clean_of_output _ c0
               (list_ascii_of_string d0 ++ path.slash :: list_ascii_of_string p)
               (Clean_sep rooted out' ++ list_ascii_of_string p)).
    + by rewrite string_of_list_ascii_app, string_of_list_ascii_of_string.
    + rewrite !list_ascii_of_string_app. simpl. by rewrite <- app_assoc.
    + fold rooted. specialize (Heq (list_ascii_of_string p)).
      destruct rooted; cbn [app] in Heq; rewrite Heq; by apply Clean_loop_cleanName.
    + rewrite Hp. by destruct (Clean_sep rooted out').
Qed.

(** On clean names [path.Join] with a directory is one to one. *)
Lemma Join_cleanName_inj dir p q :
  cleanName p → cleanName q →
  path.Join [dir; p] = path.Join [dir; q] → p = q.
Proof.
  intros Hp Hq. destruct (Join_cleanName dir) as (pre & Hpre).
  rewrite (Hpre p Hp), (Hpre q Hq). apply (inj (String.app pre)).
Qed.

(** ** Claims about the builder *)

(** C2, as stated, fails: a project that two of the groups hold is listed
    twice by [loadRepos], passes the filter twice, and the specification
    built from the two descriptors has the same [Path] twice. *)
Lemma duplicate_repository_repeats_path :
  loadRepos defaultFlags ["teamA"; "shared"]
    [Page [examples.svc] 0; Page [examples.svc] 0]
  = Some (Ok [examples.svc; examples.svc],
          [ListGroupProjects "teamA" 100 1; ListGroupProjects "shared" 100 1], [])
  ∧ (filterRepos [examples.svc; examples.svc] None
       (negb (flagForks defaultFlags)) (negb (flagArchived defaultFlags))).1
    = [examples.svc; examples.svc]
  ∧ sortedByName [examples.svc; examples.svc]
  ∧ map Path (Repositories
                (buildConfig_cfg defaultFlags examples.allPresent "livegrep index"
                   "repos" [examples.svc; examples.svc] "HEAD").1)
    = ["repos/teamA/svc"; "repos/teamA/svc"]
  ∧ ¬ NoDup (map Path (Repositories
                (buildConfig_cfg defaultFlags examples.allPresent "livegrep index"
                   "repos" [examples.svc; examples.svc] "HEAD").1)).
Proof.
  split; [reflexivity|]. split; [reflexivity|].
  split; [repeat constructor|]. split; [reflexivity|].
  change (¬ NoDup ["repos/teamA/svc"; "repos/teamA/svc"]).
  rewrite NoDup_cons. intros [Hnotin _]. apply Hnotin. by left.
Qed.

Lemma NoDup_map_inj_on {A B} (f : A → B) (l : list A) :
  (∀ x y, x ∈ l → y ∈ l → f x = f y → x = y) → NoDup l → NoDup (map f l).
Proof.
  intros Hinj Hnodup. induction Hnodup as [|x l Hx Hl IH]; simpl; [constructor|].
  apply NoDup_cons. split.
  - intros Hin. apply list_elem_of_In, in_map_iff in Hin as (y & Hfy & Hy).
    apply list_elem_of_In in Hy.
    assert (y = x) as -> by (apply Hinj; [by right | by left | done]). done.
  - apply IH. intros a b Ha Hb. apply Hinj; by right.
Qed.

Lemma NoDup_map_inv {A B} (f : A → B) (l : list A) :
  NoDup (map f l) → NoDup l.
Proof.
  induction l as [|x l IH]; simpl; [constructor|].
  rewrite !NoDup_cons. intros [Hx Hl]. split; [|by apply IH].
  intros Hin. apply Hx. apply list_elem_of_In, in_map. by apply list_elem_of_In.
Qed.

(** Two names that differ only by an empty element are joined to the same
    path: [path.Join] is one to one on clean names only. *)
Example Join_collides_on_unclean_names :
  "teamA/svc" ≠ "teamA//svc"
  ∧ path.Join ["repos"; "teamA/svc"] = path.Join ["repos"; "teamA//svc"]
  ∧ ¬ cleanName "teamA//svc".
Proof.
  split; [discriminate|]. split; [reflexivity|].
  unfold cleanName. simpl. intros Hall.
  inversion Hall as [|? ? _ Hrest]. inversion Hrest as [|? ? [Hne _] _]. done.
Qed.

(** C2, amended: the [Path] of every record is the join of the root
    directory and the namespace-qualified path of its repository, so it is
    the same for the same two.  When the namespace-qualified paths of the
    descriptors given to the builder are clean names, the [Path]s of the
    specification are pairwise distinct exactly when the names of the
    repositories built are; in particular they are when the names of the
    descriptors given are pairwise distinct. *)
Theorem buildConfig_paths (flags : Flags) (run : Runner) (name dir : string)
    (repos : list Project) (revision : string) :
  map Path (Repositories (buildConfig_cfg flags run name dir repos revision).1)
  = map (λ r, path.Join [dir; PathWithNamespace r])
        (verified flags run dir revision repos)
  ∧ (Forall (λ r, cleanName (PathWithNamespace r)) repos →
     (NoDup (map Path
               (Repositories (buildConfig_cfg flags run name dir repos revision).1))
      ↔ NoDup (map PathWithNamespace (verified flags run dir revision repos)))
     ∧ (NoDup (map PathWithNamespace repos) →
        NoDup (map Path
                 (Repositories (buildConfig_cfg flags run name dir repos revision).1)))).
Proof.
  rewrite buildConfig_cfg_spec. cbn [Repositories].
  rewrite map_map. cbn [repoSpecOf Path]. split; [done|].
  intros Hclean.
  assert (Hjoin : map (λ r, path.Join [dir; PathWithNamespace r])
                      (verified flags run dir revision repos)
                  = map (λ n, path.Join [dir; n])
                        (map PathWithNamespace (verified flags run dir revision repos)))
    by (by rewrite map_map).
  rewrite Hjoin.
  assert (Hinj : NoDup (map PathWithNamespace (verified flags run dir revision repos)) →
                 NoDup (map (λ n, path.Join [dir; n])
                          (map PathWithNamespace
                             (verified flags run dir revision repos)))).
  { apply NoDup_map_inj_on. intros n m Hn Hm.
    apply list_elem_of_In, in_map_iff in Hn as (r & <- & Hr).
    apply list_elem_of_In, in_map_iff in Hm as (r' & <- & Hr').
    unfold verified in Hr, Hr'.
    apply filter_In in Hr as [Hr _]. apply filter_In in Hr' as [Hr' _].
    rewrite Forall_forall in Hclean.
    apply Join_cleanName_inj; apply Hclean; by apply list_elem_of_In. }
  split.
  - split; [apply NoDup_map_inv | exact Hinj].
  - intros Hnames. apply Hinj. unfold verified. by apply NoDup_map_filter.
Qed.

Lemma buildConfig_paths_witness :
  NoDup (map Path (Repositories
           (buildConfig_cfg defaultFlags examples.allPresent "livegrep index" "/repos"
              [examples.legacy; examples.svc] "HEAD").1)).
Proof.
  apply (buildConfig_paths defaultFlags examples.allPresent "livegrep index" "/repos"
           [examples.legacy; examples.svc] "HEAD").
  - repeat (constructor; [unfold cleanName; simpl;
                          repeat (constructor; [repeat split; discriminate|]);
                          constructor|]).
    constructor.
  - change (NoDup ["teamA/legacy"; "teamA/svc"]).
    rewrite !NoDup_cons. repeat split; [set_solver | set_solver | constructor].
Defined.

(** C3, as stated, fails: with the credential [git] and the flags otherwise
    at their defaults, the serialized specification holds the bytes of the
    credential (the default user name of the clone options is [git] too). *)
Lemma credential_bytes_in_specification :
  flagGitlabToken (withToken defaultFlags "git") ≠ ""
  ∧ ∃ bytes,
      (buildConfig (withToken defaultFlags "git") examples.allPresent
         "livegrep index" "repos" [examples.svc] "HEAD").1 = Ok bytes
      ∧ contains bytes (flagGitlabToken (withToken defaultFlags "git")) = true.
Proof.
  split; [discriminate|].
  eexists. split; [reflexivity|]. vm_compute. reflexivity.
Qed.

(** C3, amended: the builder reads of the credential only whether it is
    empty.  Two credentials that are both configured give the same bytes and
    the same log; every record has [PasswordEnv] equal to the fixed name
    [GITLAB_TOKEN] when a credential is configured and empty when none is. *)
Theorem buildConfig_credential (flags : Flags) (run : Runner) (name dir : string)
    (repos : list Project) (revision token token' : string) :
  token ≠ "" → token' ≠ "" →
  buildConfig (withToken flags token) run name dir repos revision
  = buildConfig (withToken flags token') run name dir repos revision
  ∧ Forall (λ s, PasswordEnv (CloneOptions_ s) = "GITLAB_TOKEN")
      (Repositories
         (buildConfig_cfg (withToken flags token) run name dir repos revision).1)
  ∧ Forall (λ s, PasswordEnv (CloneOptions_ s) = "")
      (Repositories
         (buildConfig_cfg (withToken flags "") run name dir repos revision).1).
Proof.
  intros Htoken Htoken'.
  assert (Hspec : ∀ t, t ≠ "" →
    repoSpecOf (withToken flags t) dir revision =
    repoSpecOf (withToken flags "x") dir revision).
  { intros t Ht. unfold repoSpecOf. simpl.
    destruct (decide (t ≠ "")); [done | tauto]. }
  split; [|split].
  - apply injective_projections.
    + rewrite !buildConfig_serialized, !buildConfig_cfg_spec, !verified_withToken.
      by rewrite (Hspec token), (Hspec token').
    + rewrite !buildConfig_logged. unfold buildConfig_cfg.
      by apply buildConfig_fold_log.
  - rewrite buildConfig_cfg_spec. cbn [Repositories].
    apply Forall_forall. intros s Hs%list_elem_of_In%in_map_iff.
    destruct Hs as (r & <- & _). unfold repoSpecOf. simpl.
    destruct (decide (token ≠ "")); [done | tauto].
  - rewrite buildConfig_cfg_spec. cbn [Repositories].
    apply Forall_forall. intros s Hs%list_elem_of_In%in_map_iff.
    by destruct Hs as (r & <- & _).
Qed.

Lemma buildConfig_credential_witness :
  buildConfig (withToken defaultFlags "glpat-4f9a") examples.allPresent
    "livegrep index" "repos" [examples.legacy; examples.svc] "HEAD"
  = buildConfig (withToken defaultFlags "git") examples.allPresent
      "livegrep index" "repos" [examples.legacy; examples.svc] "HEAD"
  ∧ Forall (λ s, PasswordEnv (CloneOptions_ s) = "GITLAB_TOKEN")
      (Repositories
         (buildConfig_cfg (withToken defaultFlags "glpat-4f9a") examples.allPresent
            "livegrep index" "repos" [examples.legacy; examples.svc] "HEAD").1)
  ∧ Forall (λ s, PasswordEnv (CloneOptions_ s) = "")
      (Repositories
         (buildConfig_cfg (withToken defaultFlags "") examples.allPresent
            "livegrep index" "repos" [examples.legacy; examples.svc] "HEAD").1).
Proof.
  apply (buildConfig_credential defaultFlags examples.allPresent "livegrep index"
           "repos" [examples.legacy; examples.svc] "HEAD" "glpat-4f9a" "git");
    discriminate.
Defined.

(** C4: the records of the specification are those of the repositories not
    skipped, in order, and each has as [Metadata.Remote] the SSH clone URL of
    its repository when the HTTPS flag is not set and the HTTPS clone URL
    when it is. *)
Theorem buildConfig_remote (flags : Flags) (run : Runner) (name dir : string)
    (repos : list Project) (revision : string) :
  Forall2
    (λ r s, Name s = PathWithNamespace r
            ∧ Remote (Metadata_ s) =
              if flagHTTP flags then HTTPURLToRepo r else SSHURLToRepo r)
    (verified flags run dir revision repos)
    (Repositories (buildConfig_cfg flags run name dir repos revision).1).
Proof.
  rewrite buildConfig_cfg_spec. cbn [Repositories].
  induction (verified flags run dir revision repos) as [|r l IH]; simpl;
    constructor; [|done].
  split; [reflexivity|]. unfold repoSpecOf. simpl. by destruct (flagHTTP flags).
Qed.

Lemma buildConfig_cfg_sorted flags run name dir repos revision :
  sortedByName repos →
  StronglySorted (λ s t, String.le (Name s) (Name t))
    (Repositories (buildConfig_cfg flags run name dir repos revision).1).
Proof.
  intros Hsorted. rewrite buildConfig_cfg_spec. cbn [Repositories].
  apply sortedByName_strongly in Hsorted.
  apply (StronglySorted_filter pathLe
           (λ r, negb (revisionMissing flags run dir revision r))) in Hsorted.
  fold (verified flags run dir revision repos) in Hsorted.
  induction Hsorted as [|r l Hl IH Hr]; simpl; constructor; [done|].
  apply Forall_forall. intros s Hs%list_elem_of_In%in_map_iff.
  destruct Hs as (r' & <- & Hin). rewrite Forall_forall in Hr.
  by apply Hr, list_elem_of_In.
Qed.

Lemma buildConfig_cfg_names flags run name dir repos revision :
  Forall2 (λ r s, Name s = PathWithNamespace r)
    (verified flags run dir revision repos)
    (Repositories (buildConfig_cfg flags run name dir repos revision).1).
Proof.
  rewrite buildConfig_cfg_spec. cbn [Repositories].
  induction (verified flags run dir revision repos) as [|r l IH]; simpl;
    by constructor.
Qed.

(** What [main] builds from the filtered descriptors once [sort.Sort] has
    put them in order: whichever order [sort.Sort] gives to descriptors of
    equal path, the names of the records are in order. *)
Lemma main_specification_sorted flags run name dir filtered sorted revision :
  sort_Sort_post filtered sorted →
  StronglySorted (λ s t, String.le (Name s) (Name t))
    (Repositories (buildConfig_cfg flags run name dir sorted revision).1).
Proof. intros [_ Hsorted]. by apply buildConfig_cfg_sorted. Qed.

(** C6: when the descriptors given to the builder are sorted by
    [ReposByName], the records of the specification come in non-decreasing
    order of their namespace-qualified path (the [Name] of the record), in
    the lexicographic order of the bytes: every record is at most any record
    after it. *)
Theorem buildConfig_sorted (flags : Flags) (run : Runner) (name dir : string)
    (repos : list Project) (revision : string) :
  sortedByName repos →
  StronglySorted (λ s t, String.le (Name s) (Name t))
    (Repositories (buildConfig_cfg flags run name dir repos revision).1)
  ∧ Forall2 (λ r s, Name s = PathWithNamespace r)
      (verified flags run dir revision repos)
      (Repositories (buildConfig_cfg flags run name dir repos revision).1).
Proof.
  intros Hsorted. split.
  - by apply buildConfig_cfg_sorted.
  - apply buildConfig_cfg_names.
Qed.

Lemma buildConfig_sorted_witness :
  StronglySorted (λ s t, String.le (Name s) (Name t))
    (Repositories
       (buildConfig_cfg defaultFlags examples.allPresent "livegrep index" "/repos"
          [examples.legacy; examples.svc] "HEAD").1)
  ∧ Forall2 (λ r s, Name s = PathWithNamespace r)
      (verified defaultFlags examples.allPresent "/repos" "HEAD"
         [examples.legacy; examples.svc])
      (Repositories
         (buildConfig_cfg defaultFlags examples.allPresent "livegrep index" "/repos"
            [examples.legacy; examples.svc] "HEAD").1).
Proof.
  apply (buildConfig_sorted defaultFlags examples.allPresent "livegrep index" "/repos"
           [examples.legacy; examples.svc] "HEAD").
  repeat constructor.
Defined.

(** ** The end-to-end scenarios *)

(** Two repositories, one of them a fork; forks excluded, no ignore list,
    root directory [/repos], revision [HEAD]: one record, for [teamA/svc]. *)
Example scenario_forks_excluded :
  let repos := (filterRepos [examples.svc; examples.legacy] None true true).1 in
  repos = [examples.svc]
  ∧ map (λ s, (Path s, Revisions s))
        (Repositories
           (buildConfig_cfg defaultFlags examples.allPresent "livegrep index" "/repos"
              repos "HEAD").1)
    = [("/repos/teamA/svc", ["HEAD"])].
Proof. split; reflexivity. Qed.

(** The same two repositories, forks kept, the ignore list of [ignoreFile]:
    only [teamA/legacy] is left. *)
Example scenario_ignore_list :
  ∃ I : gset string,
    loadIgnorelist examples.fileSystem "ignore.txt" = Ok I
    ∧ (filterRepos [examples.svc; examples.legacy] (Some I) false true).1
      = [examples.legacy].
Proof.
  eexists. split.
  - exact (loadIgnorelist_ok examples.fileSystem "ignore.txt" examples.ignoreFile eq_refl).
  - rewrite filterRepos_out. unfold kept. simpl.
    rewrite bool_decide_eq_true_2 by set_solver.
    rewrite bool_decide_eq_false_2; [done|].
    rewrite !elem_of_union, !elem_of_singleton. intros [?|[?|?]]; set_solver.
Qed.

(** Skip-missing set and the revision not found in the local clone: the
    repository is left out with a log line, and the builder still returns a
    specification. *)
Example scenario_missing_revision :
  ∃ bytes,
    buildConfig
      {| flagGitlabToken := ""; flagUrlPattern := flagUrlPattern defaultFlags;
         flagForks := true; flagArchived := false; flagHTTP := false;
         flagHTTPUsername := "git"; flagDepth := 0; flagSkipMissing := true |}
      (λ _ _, false) "livegrep index" "/repos" [examples.svc] "abc123"
    = (Ok bytes, ["Skipping missing revision repo=teamA/svc rev=abc123"]).
Proof. eexists. reflexivity. Qed.

(** With a credential that occurs nowhere else in the input, the bytes name
    the environment variable and do not hold the credential. *)
Example specification_names_the_variable :
  ∃ bytes,
    (buildConfig (withToken defaultFlags "glpat-4f9a") examples.allPresent
       "livegrep index" "repos" [examples.svc] "HEAD").1 = Ok bytes
    ∧ contains bytes "GITLAB_TOKEN" = true
    ∧ contains bytes "glpat-4f9a" = false.
Proof. eexists. split; [reflexivity|]. split; vm_compute; reflexivity. Qed.

(** The order of [ReposByName] is the order of the bytes: capitals come
    before small letters, a prefix before its extensions. *)
Example ReposByName_Less_bytes :
  String.ltb "Zeta/a" "alpha/a" = true
  ∧ String.ltb "teamA/svc" "teamA/svc2" = true
  ∧ String.ltb "teamA/svc" "teamA/svc" = false.
Proof. repeat split. Qed.

(** * Further properties of the functions *)

(** ** filterRepos *)

Lemma filterRepos_fold_log ignorelist ef ea repos : ∀ st : filterState,
  (fold_left (filterRepos_body ignorelist ef ea) repos st).2 =
  st.2 ++ (if ef then forkLines repos else []).
Proof.
  induction repos as [|r repos IH]; intros [out logged].
  - simpl. destruct ef; by rewrite app_nil_r.
  - cbn [fold_left]. rewrite IH. unfold filterRepos_body, forkLines.
    cbn [flat_map].
    destruct ef, (ForkedFromProject r) as [parent|]; simpl;
      try (by rewrite <- app_assoc);
      destruct ignorelist as [m|]; try done; by destruct (decide _).
Qed.

Lemma filterRepos_pair repos ignorelist ef ea :
  filterRepos repos ignorelist ef ea =
  (List.filter (kept ignorelist ef) repos, if ef then forkLines repos else []).
Proof.
  apply injective_projections; simpl.
  - apply filterRepos_out.
  - unfold filterRepos. by rewrite filterRepos_fold_log.
Qed.

Lemma forkLines_app a b : forkLines (a ++ b) = forkLines a ++ forkLines b.
Proof. unfold forkLines. by rewrite flat_map_app. Qed.

Lemma forkLines_kept ignorelist repos :
  forkLines (List.filter (kept ignorelist true) repos) = [].
Proof.
  induction repos as [|r repos IH]; [done|]. cbn [List.filter].
  destruct (kept ignorelist true r) eqn:Hk; [|done].
  apply kept_spec in Hk as [Hfork _].
  unfold forkLines in *. cbn [flat_map]. by rewrite (Hfork eq_refl), IH.
Qed.

Lemma filter_kept_twice ignorelist ef repos :
  List.filter (kept ignorelist ef) (List.filter (kept ignorelist ef) repos) =
  List.filter (kept ignorelist ef) repos.
Proof.
  induction repos as [|r repos IH]; [done|]. cbn [List.filter].
  destruct (kept ignorelist ef r) eqn:Hk; [|done].
  cbn [List.filter]. by rewrite Hk, IH.
Qed.

(** X1: the filter only drops: its output is the input with some
    descriptors left out, the others in their order of discovery. *)
Theorem filterRepos_order_kept (repos : list Project)
    (ignorelist : option (gset string)) (excludeForks excludeArchived : bool) :
  sublist (filterRepos repos ignorelist excludeForks excludeArchived).1 repos.
Proof.
  rewrite filterRepos_out.
  induction repos as [|r repos IH]; simpl; [constructor|].
  destruct (kept ignorelist excludeForks r); by constructor.
Qed.

(** X2: the filter logs one line for every fork of the input when forks
    are excluded (also for a fork that the ignore list names: the fork test
    comes first), and nothing otherwise: a descriptor dropped for the ignore
    list leaves no trace. *)
Theorem filterRepos_log_lines (repos : list Project)
    (ignorelist : option (gset string)) (excludeArchived : bool) :
  (filterRepos repos ignorelist true excludeArchived).2 = forkLines repos
  ∧ (filterRepos repos ignorelist false excludeArchived).2 = [].
Proof. by rewrite !filterRepos_pair. Qed.

(** X3: filtering what the filter returned changes nothing and logs
    nothing. *)
Theorem filterRepos_idempotent (repos : list Project)
    (ignorelist : option (gset string)) (excludeForks ea ea' : bool) :
  filterRepos (filterRepos repos ignorelist excludeForks ea).1 ignorelist excludeForks ea'
  = ((filterRepos repos ignorelist excludeForks ea).1, []).
Proof.
  rewrite !filterRepos_pair. cbn [fst]. rewrite filter_kept_twice. f_equal.
  destruct excludeForks; [apply forkLines_kept | done].
Qed.

(** X4: the filter treats every descriptor on its own: filtering the
    listings of two groups one after the other is filtering each and joining
    the results and the logs. *)
Theorem filterRepos_app (a b : list Project)
    (ignorelist : option (gset string)) (excludeForks excludeArchived : bool) :
  filterRepos (a ++ b) ignorelist excludeForks excludeArchived
  = ((filterRepos a ignorelist excludeForks excludeArchived).1
       ++ (filterRepos b ignorelist excludeForks excludeArchived).1,
     (filterRepos a ignorelist excludeForks excludeArchived).2
       ++ (filterRepos b ignorelist excludeForks excludeArchived).2).
Proof.
  rewrite !filterRepos_pair. cbn [fst snd]. rewrite List.filter_app. f_equal.
  destruct excludeForks; [apply forkLines_app | done].
Qed.

(** X5: with no ignore list and forks kept, every descriptor passes, forks
    and archived repositories too. *)
Theorem filterRepos_nothing_excluded (repos : list Project) (excludeArchived : bool) :
  filterRepos repos None false excludeArchived = (repos, []).
Proof.
  rewrite filterRepos_pair. f_equal.
  induction repos as [|r repos IH]; [done|]. simpl. by rewrite IH.
Qed.

(** ** strings.Split and loadIgnorelist *)

Lemma strings_Split_app_sep s1 s2 sep :
  strings_Split (s1 +:+ String sep s2) sep =
  strings_Split s1 sep ++ strings_Split s2 sep.
Proof.
  induction s1 as [|c s1 IH].
  - change ("" +:+ String sep s2) with (String sep s2).
    cbn [strings_Split]. by rewrite Ascii.eqb_refl.
  - change (String c s1 +:+ String sep s2) with (String c (s1 +:+ String sep s2)).
    cbn [strings_Split]. rewrite IH.
    pose proof (strings_Split_nonempty s1 sep) as Hne.
    destruct (strings_Split s1 sep) as [|l ls]; [done|].
    by destruct (Ascii.eqb c sep).
Qed.

(** X6: cutting a text that has a separator between two parts gives the
    lines of the first part followed by the lines of the second: a line
    never runs across a newline, and the lines of a file do not depend on
    what other lines surround them. *)
Theorem strings_Split_concat (s1 s2 : string) (sep : ascii) :
  strings_Split (s1 +:+ String sep s2) sep =
  strings_Split s1 sep ++ strings_Split s2 sep.
Proof. apply strings_Split_app_sep. Qed.

(** X7: [strings.Split] returns one line more than the text has
    separators; in particular one (empty) line for the empty text and never
    an empty list. *)
Theorem strings_Split_length (s : string) (sep : ascii) :
  length (strings_Split s sep) = S (countByte sep s).
Proof.
  unfold countByte. induction s as [|c s IH]; [done|].
  cbn [strings_Split list_ascii_of_string List.filter].
  rewrite (Ascii.eqb_sym sep c).
  pose proof (strings_Split_nonempty s sep) as Hne.
  destruct (Ascii.eqb c sep); simpl; [by rewrite IH|].
  destruct (strings_Split s sep) as [|l ls]; [done|]. by rewrite <- IH.
Qed.

(** X8: a readable ignore-list file never loads as the empty set; when the
    file is empty or ends with a newline, the empty identifier is in the
    loaded set. *)
Theorem loadIgnorelist_never_empty (fs : FileSystem) (path data : string) :
  fs path = Ok data →
  ∃ I : gset string,
    loadIgnorelist fs path = Ok I
    ∧ I ≠ ∅
    ∧ ((data = "" ∨ ∃ d, data = d +:+ String newline "") → "" ∈ I).
Proof.
  intros Hread. exists (list_to_set (strings_Split data newline)).
  split; [by apply loadIgnorelist_ok|]. split.
  - pose proof (strings_Split_nonempty data newline) as Hne.
    destruct (strings_Split data newline) as [|l ls]; [done|].
    intros Hempty. assert (l ∈ (list_to_set (l :: ls) : gset string)) as Hin
      by (apply elem_of_list_to_set; left).
    rewrite Hempty in Hin. set_solver.
  - intros [->|[d ->]]; apply elem_of_list_to_set.
    + left.
    + rewrite strings_Split_app_sep. apply elem_of_app. right. left.
Qed.

Lemma loadIgnorelist_never_empty_witness :
  ∃ I : gset string,
    loadIgnorelist examples.fileSystem "ignore.txt" = Ok I
    ∧ I ≠ ∅
    ∧ ((examples.ignoreFile = ""
        ∨ ∃ d, examples.ignoreFile = d +:+ String newline "") → "" ∈ I).
Proof.
  apply (loadIgnorelist_never_empty examples.fileSystem "ignore.txt" examples.ignoreFile).
  reflexivity.
Defined.

(** X9: the loaded set depends on which lines the file has, not on their
    order or on how often a line is repeated. *)
Theorem loadIgnorelist_same_lines (fs fs' : FileSystem)
    (path path' data data' : string) :
  fs path = Ok data → fs' path' = Ok data' →
  (∀ l, l ∈ strings_Split data newline ↔ l ∈ strings_Split data' newline) →
  loadIgnorelist fs path = loadIgnorelist fs' path'.
Proof.
  intros Hread Hread' Hlines.
  rewrite (loadIgnorelist_ok fs path data Hread),
          (loadIgnorelist_ok fs' path' data' Hread').
  f_equal. apply set_eq. intros l. by rewrite !elem_of_list_to_set.
Qed.

Lemma loadIgnorelist_same_lines_witness :
  loadIgnorelist (λ _, Ok ("a/x" +:+ String newline "b/y")) "one"
  = loadIgnorelist
      (λ _, Ok ("b/y" +:+ String newline ("a/x" +:+ String newline "b/y"))) "two".
Proof.
  apply (loadIgnorelist_same_lines _ _ "one" "two"
           ("a/x" +:+ String newline "b/y")
           ("b/y" +:+ String newline ("a/x" +:+ String newline "b/y")));
    [reflexivity | reflexivity |].
  intros l. change (l ∈ ["a/x"; "b/y"] ↔ l ∈ ["b/y"; "a/x"; "b/y"]).
  rewrite !elem_of_cons, !elem_of_nil. tauto.
Defined.

(** ** loadRepos: from the result back to the answers *)

Lemma pagesAsked_length page consumed :
  length (pagesAsked page consumed) = length consumed.
Proof. revert page; induction consumed as [|a c IH]; intros page; simpl; auto. Qed.

Lemma pagesAsked_after_last page pre ps consumed :
  pagesAsked page (pre ++ Page ps 0 :: consumed) =
  pagesAsked page (pre ++ [Page ps 0]) ++ pagesAsked 1 consumed.
Proof.
  revert page; induction pre as [|a pre IH]; intros page; simpl; [done|].
  by rewrite IH.
Qed.

Lemma lastPages_cons_more ps next pre :
  next ≠ 0%Z → lastPages (Page ps next :: pre) = lastPages pre.
Proof. intros Hnz. unfold lastPages. simpl. by rewrite bool_decide_eq_false_2. Qed.

Lemma lastPages_snoc_last pre ps :
  lastPages (pre ++ [Page ps 0]) = S (lastPages pre).
Proof. rewrite lastPages_app. unfold lastPages at 2. simpl. lia. Qed.

Lemma lastPages_snoc_error pre e :
  lastPages (pre ++ [PageError e]) = lastPages pre.
Proof. rewrite lastPages_app. unfold lastPages at 2. simpl. lia. Qed.

(** What one listing consumed when it came to an end. *)
Lemma fetchPages_inv mk answers : ∀ page projects sent res sent' rest,
  fetchPages mk page projects sent answers = Some (res, sent', rest) →
  ∃ pre last,
    answers = pre ++ last :: rest
    ∧ Forall (λ a, isPage a = true) pre ∧ lastPages pre = 0
    ∧ sent' = sent ++ map mk (pagesAsked page (pre ++ [last]))
    ∧ match last with
      | PageError e => res = Err e
      | Page ps next =>
          next = 0%Z ∧ res = Ok (projects ++ concat (map pageItems pre) ++ ps)
      end.
Proof.
  induction answers as [|a answers IH]; intros page projects sent res sent' rest Hrun;
    [done|].
  destruct a as [ps next|e]; cbn [fetchPages] in Hrun.
  - destruct (decide (next = 0%Z)) as [->|Hnz].
    + inversion Hrun; subst. exists [], (Page ps 0). repeat split; auto.
    + apply IH in Hrun as (pre & last & -> & Hpre & Hlast & -> & Hres).
      exists (Page ps next :: pre), last. split; [done|].
      split; [by constructor|]. split; [by rewrite lastPages_cons_more|].
      split.
      * cbn [app pagesAsked map]. destruct (decide (next = 0%Z)); [done|].
        by rewrite <- app_assoc.
      * destruct last as [ps' next'|e']; [|done].
        destruct Hres as [-> ->]. split; [done|].
        cbn [map concat pageItems]. by rewrite <- !app_assoc.
  - inversion Hrun; subst. exists [], (PageError e). repeat split; auto.
Qed.

Lemma fetchGroups_inv groups : ∀ projects sent answers res sent' rest,
  fetchGroups groups projects sent answers = Some (res, sent', rest) →
  ∃ consumed reqs,
    answers = consumed ++ rest
    ∧ sent' = sent ++ reqs
    ∧ map requestPage reqs = pagesAsked 1 consumed
    ∧ Forall (λ rq, ∃ group page,
                rq = ListGroupProjects group 100 page ∧ group ∈ groups) reqs
    ∧ match res with
      | Err e => ∃ pre, consumed = pre ++ [PageError e]
                        ∧ Forall (λ a, isPage a = true) pre
                        ∧ lastPages pre < length groups
      | Ok ps => Forall (λ a, isPage a = true) consumed
                 ∧ lastPages consumed = length groups
                 ∧ ps = projects ++ concat (map pageItems consumed)
      end.
Proof.
  induction groups as [|g groups IH]; intros projects sent answers res sent' rest Hrun.
  - inversion Hrun; subst. exists [], []. rewrite !app_nil_r. repeat split; auto.
  - cbn [fetchGroups] in Hrun.
    destruct (fetchPages _ 1 projects sent answers)
      as [[[[ps1|e1] sent1] rest1]|] eqn:Hpages; [| |done].
    + apply fetchPages_inv in Hpages as (pre & last & -> & Hpre & Hlast & -> & Hres).
      destruct last as [ps next|e]; [|done]. destruct Hres as [-> Hps].
      inversion Hps; subst ps1; clear Hps.
      apply IH in Hrun as (consumed & reqs & -> & -> & Hpagesreq & Hreqs & Hres).
      exists ((pre ++ [Page ps 0]) ++ consumed),
             (map (λ page, ListGroupProjects g 100 page)
                  (pagesAsked 1 (pre ++ [Page ps 0])) ++ reqs).
      split; [by rewrite <- !app_assoc|]. split; [by rewrite <- !app_assoc|].
      split.
      { rewrite map_app, map_map. cbn [requestPage]. rewrite map_id, Hpagesreq.
        rewrite <- (app_assoc pre). cbn [app]. by rewrite (pagesAsked_after_last 1 pre ps consumed). }
      split.
      { apply Forall_app. split.
        - apply Forall_forall. intros rq Hrq%list_elem_of_In%in_map_iff.
          destruct Hrq as (page & <- & _). exists g, page. split; [done|]. left.
        - eapply Forall_impl; [exact Hreqs|]. intros rq (g' & page & -> & Hg').
          exists g', page. split; [done|]. by right. }
      destruct res as [ps'|e'].
      * destruct Hres as (Hcons & Hcount & ->). split; [|split].
        -- apply Forall_app. split; [|done]. apply Forall_app. split; [done|].
           by repeat constructor.
        -- rewrite lastPages_app, lastPages_snoc_last. simpl. lia.
        -- rewrite !map_app, !concat_app. simpl. rewrite app_nil_r.
           by rewrite <- !app_assoc.
      * destruct Hres as (pre' & -> & Hpre' & Hcount).
        exists ((pre ++ [Page ps 0]) ++ pre'). split; [by rewrite <- !app_assoc|].
        split.
        -- apply Forall_app. split; [|done]. apply Forall_app. split; [done|].
           by repeat constructor.
        -- rewrite lastPages_app, lastPages_snoc_last. simpl. lia.
    + inversion Hrun; subst; clear Hrun.
      apply fetchPages_inv in Hpages as (pre & last & -> & Hpre & Hlast & -> & Hres).
      destruct last as [ps next|e]; [by destruct Hres|].
      inversion Hres; subst e1.
      exists (pre ++ [PageError e]),
             (map (λ page, ListGroupProjects g 100 page)
                  (pagesAsked 1 (pre ++ [PageError e]))).
      split; [by rewrite <- app_assoc|]. split; [done|].
      split; [rewrite map_map; cbn [requestPage]; by rewrite map_id|].
      split.
      { apply Forall_forall. intros rq Hrq%list_elem_of_In%in_map_iff.
        destruct Hrq as (page & <- & _). exists g, page. split; [done|]. left. }
      exists pre. split; [done|]. split; [done|]. simpl. lia.
Qed.

(** Everything that a result of [loadRepos] says about the answers: which of
    them were consumed, and the requests that went out for them. *)
Lemma loadRepos_inv flags groups answers res sent rest :
  loadRepos flags groups answers = Some (res, sent, rest) →
  ∃ consumed,
    answers = consumed ++ rest
    ∧ map requestPage sent = pagesAsked 1 consumed
    ∧ Forall (λ rq, requestPerPage rq = 100%Z ∧ requestFor flags groups rq) sent
    ∧ match res with
      | Err e => ∃ pre, consumed = pre ++ [PageError e]
                        ∧ Forall (λ a, isPage a = true) pre
                        ∧ lastPages pre < listings groups
      | Ok ps => Forall (λ a, isPage a = true) consumed
                 ∧ lastPages consumed = listings groups
                 ∧ ps = concat (map pageItems consumed)
      end.
Proof.
  unfold loadRepos. intros Hrun. destruct groups as [|g groups].
  - destruct (decide _) as [Hlen|_]; [simpl in Hlen; lia|].
    apply fetchPages_inv in Hrun as (pre & last & -> & Hpre & Hlast & -> & Hres).
    exists (pre ++ [last]). split; [by rewrite <- app_assoc|].
    cbn [app] in *.
    split; [rewrite map_map; cbn [requestPage]; by rewrite map_id|].
    split.
    { apply Forall_forall. intros rq Hrq%list_elem_of_In%in_map_iff.
      by destruct Hrq as (page & <- & _). }
    destruct last as [ps next|e].
    + destruct Hres as [-> ->]. split; [|split].
      * apply Forall_app. split; [done|]. by repeat constructor.
      * rewrite lastPages_snoc_last. simpl. lia.
      * rewrite map_app, concat_app. simpl. by rewrite app_nil_r.
    + subst res. exists pre. split; [done|]. split; [done|]. simpl. lia.
  - destruct (decide _) as [_|Hlen]; [|simpl in Hlen; lia].
    apply fetchGroups_inv in Hrun
      as (consumed & reqs & -> & -> & Hpagesreq & Hreqs & Hres).
    exists consumed. cbn [app] in *. split; [done|]. split; [done|].
    split.
    { eapply Forall_impl; [exact Hreqs|]. by intros rq (g' & page & -> & Hg'). }
    destruct res as [ps|e]; [|done].
    by destruct Hres as (? & ? & ->).
Qed.

Lemma fetchPages_none mk answers : ∀ page projects sent,
  fetchPages mk page projects sent answers = None →
  Forall (λ a, isPage a = true) answers ∧ lastPages answers = 0.
Proof.
  induction answers as [|a answers IH]; intros page projects sent Hrun; [done|].
  destruct a as [ps next|e]; cbn [fetchPages] in Hrun; [|done].
  destruct (decide (next = 0%Z)) as [->|Hnz]; [done|].
  apply IH in Hrun as [Hpages Hlast].
  split; [by constructor | by rewrite lastPages_cons_more].
Qed.

Lemma fetchGroups_none groups : ∀ projects sent answers,
  fetchGroups groups projects sent answers = None →
  Forall (λ a, isPage a = true) answers ∧ lastPages answers < length groups.
Proof.
  induction groups as [|g groups IH]; intros projects sent answers Hrun; [done|].
  cbn [fetchGroups] in Hrun.
  destruct (fetchPages _ 1 projects sent answers)
    as [[[[ps1|e1] sent1] rest1]|] eqn:Hpages; [|done|].
  - apply fetchPages_inv in Hpages as (pre & last & -> & Hpre & Hlast & _ & Hres).
    destruct last as [ps next|e]; [|done]. destruct Hres as [-> _].
    apply IH in Hrun as [Hrest Hcount]. split.
    + apply Forall_app. split; [done|]. by constructor.
    + change (pre ++ Page ps 0 :: rest1) with (pre ++ [Page ps 0] ++ rest1).
      rewrite app_assoc, lastPages_app, lastPages_snoc_last. simpl. lia.
  - apply fetchPages_none in Hpages as [Hpages Hlast]. split; [done|]. simpl. lia.
Qed.

(** X10: what a result of [loadRepos] means for the answers of the
    service.  An error is the error of the last answer consumed, and all
    answers before it were pages; a collection is the items of the answers
    consumed, which were all pages, the last page of each listing among
    them.  In both cases one request went out for each answer consumed and
    the answers after it were not asked for. *)
Theorem loadRepos_result_sound (flags : Flags) (groups : list string)
    (answers : list PageResponse) (res : result (list Project))
    (sent : list Request) (rest : list PageResponse) :
  loadRepos flags groups answers = Some (res, sent, rest) →
  ∃ consumed,
    answers = consumed ++ rest
    ∧ length sent = length consumed
    ∧ match res with
      | Err e => ∃ pre, consumed = pre ++ [PageError e]
                        ∧ Forall (λ a, isPage a = true) pre
                        ∧ lastPages pre < listings groups
      | Ok ps => Forall (λ a, isPage a = true) consumed
                 ∧ lastPages consumed = listings groups
                 ∧ ps = concat (map pageItems consumed)
      end.
Proof.
  intros Hrun.
  apply loadRepos_inv in Hrun as (consumed & -> & Hpages & _ & Hres).
  exists consumed. split; [done|]. split; [|done].
  by rewrite <- (length_map requestPage), Hpages, pagesAsked_length.
Qed.

Lemma loadRepos_result_sound_witness :
  ∃ consumed,
    [Page [examples.svc] 2; Page [examples.legacy] 0; PageError "502 Bad Gateway";
     Page [examples.svc] 0]
    = consumed ++ [Page [examples.svc] 0]
    ∧ length [ListGroupProjects "teamA" 100 1; ListGroupProjects "teamA" 100 2;
              ListGroupProjects "shared" 100 1]
      = length consumed
    ∧ ∃ pre, consumed = pre ++ [PageError "502 Bad Gateway"]
             ∧ Forall (λ a, isPage a = true) pre
             ∧ lastPages pre < listings ["teamA"; "shared"].
Proof.
  apply (loadRepos_result_sound defaultFlags ["teamA"; "shared"]
           [Page [examples.svc] 2; Page [examples.legacy] 0;
            PageError "502 Bad Gateway"; Page [examples.svc] 0]
           (Err "502 Bad Gateway")).
  reflexivity.
Defined.

(** X11: [loadRepos] has no result exactly when the service has only given
    pages and not yet the last page of every listing: on every sequence of
    answers that holds an error or enough last pages it returns. *)
Theorem loadRepos_waits_iff (flags : Flags) (groups : list string)
    (answers : list PageResponse) :
  loadRepos flags groups answers = None ↔
  Forall (λ a, isPage a = true) answers ∧ lastPages answers < listings groups.
Proof.
  split.
  - unfold loadRepos. intros Hrun. destruct groups as [|g groups].
    + destruct (decide _) as [Hlen|_]; [simpl in Hlen; lia|].
      apply fetchPages_none in Hrun as [Hpages Hlast]. split; [done|]. simpl. lia.
    + destruct (decide _) as [_|Hlen]; [|simpl in Hlen; lia].
      by apply fetchGroups_none in Hrun.
  - intros [Hpages Hcount]. by apply loadRepos_pending.
Qed.

(** X12: the requests that [loadRepos] sends.  Each asks for 100 items a
    page; the first request of a listing asks for page 1 and every other for
    the page that the answer before it named.  With groups, every request
    lists one of the groups (the archived option is not sent at all);
    without, every request lists everything accessible with the archived
    option of the flags. *)
Theorem loadRepos_protocol (flags : Flags) (groups : list string)
    (answers : list PageResponse) (res : result (list Project))
    (sent : list Request) (rest : list PageResponse) :
  loadRepos flags groups answers = Some (res, sent, rest) →
  ∃ consumed,
    answers = consumed ++ rest
    ∧ map requestPage sent = pagesAsked 1 consumed
    ∧ Forall (λ rq, requestPerPage rq = 100%Z ∧ requestFor flags groups rq) sent.
Proof.
  intros Hrun.
  apply loadRepos_inv in Hrun as (consumed & -> & Hpages & Hreqs & _).
  by exists consumed.
Qed.

Lemma loadRepos_protocol_witness :
  ∃ consumed,
    [Page [examples.svc] 7; Page [examples.legacy] 0] = consumed ++ []
    ∧ map requestPage [ListProjects false 100 1; ListProjects false 100 7]
      = pagesAsked 1 consumed
    ∧ Forall (λ rq, requestPerPage rq = 100%Z ∧ requestFor defaultFlags [] rq)
        [ListProjects false 100 1; ListProjects false 100 7].
Proof.
  apply (loadRepos_protocol defaultFlags []
           [Page [examples.svc] 7; Page [examples.legacy] 0]
           (Ok [examples.svc; examples.legacy])).
  reflexivity.
Defined.

(** ** buildConfig *)

Lemma buildConfig_fold_skipLines flags run dir revision repos : ∀ st : buildState,
  (fold_left (buildConfig_body flags run dir revision) repos st).2 =
  st.2 ++ skipLines flags run dir revision repos.
Proof.
  induction repos as [|r repos IH]; intros [cfg logged].
  - simpl. by rewrite app_nil_r.
  - cbn [fold_left]. rewrite IH. unfold buildConfig_body, skipLines.
    cbn [List.filter].
    destruct (revisionMissing flags run dir revision r); simpl; [|done].
    by rewrite <- app_assoc.
Qed.

Lemma buildConfig_cfg_pair flags run name dir repos revision :
  buildConfig_cfg flags run name dir repos revision =
  ({| IndexName := name;
      Repositories := map (repoSpecOf flags dir revision)
                          (verified flags run dir revision repos) |},
   skipLines flags run dir revision repos).
Proof.
  apply injective_projections; simpl.
  - apply buildConfig_cfg_spec.
  - unfold buildConfig_cfg. by rewrite buildConfig_fold_skipLines.
Qed.

Lemma filter_partition_length {A} (p : A → bool) (l : list A) :
  length (List.filter (λ x, negb (p x)) l) + length (List.filter p l) = length l.
Proof.
  induction l as [|x l IH]; [done|]. simpl. destruct (p x); simpl; lia.
Qed.

Lemma int32_range n : (- 2 ^ 31 ≤ int32 n < 2 ^ 31)%Z.
Proof.
  unfold int32.
  pose proof (Z.mod_pos_bound (n + 2 ^ 31) (2 ^ 32) ltac:(lia)). lia.
Qed.

Lemma int32_in_range n : (- 2 ^ 31 ≤ n < 2 ^ 31)%Z → int32 n = n.
Proof. intros Hn. unfold int32. rewrite Z.mod_small; lia. Qed.

Lemma int32_congruent n : ((int32 n - n) mod 2 ^ 32 = 0)%Z.
Proof.
  unfold int32.
  replace ((n + 2 ^ 31) mod 2 ^ 32 - 2 ^ 31 - n)%Z
    with ((n + 2 ^ 31) mod 2 ^ 32 - (n + 2 ^ 31))%Z by lia.
  rewrite Zminus_mod, Z.mod_mod by lia. by rewrite Z.sub_diag.
Qed.

(** X13: the builder accounts for every repository it is given: each has
    either a record in the specification or a log line that says it was
    skipped, never both and never neither; the log lines name the skipped
    repositories in order. *)
Theorem buildConfig_accounts_for_all (flags : Flags) (run : Runner) (name dir : string)
    (repos : list Project) (revision : string) :
  (buildConfig_cfg flags run name dir repos revision).2
  = skipLines flags run dir revision repos
  ∧ length (Repositories (buildConfig_cfg flags run name dir repos revision).1)
    + length (buildConfig_cfg flags run name dir repos revision).2
    = length repos.
Proof.
  rewrite buildConfig_cfg_pair. cbn [fst snd Repositories]. split; [done|].
  unfold skipLines, verified. rewrite !length_map. apply filter_partition_length.
Qed.

(** X14: when skip-missing is not set, [git] is never consulted: whatever
    the commands would answer, the specification has one record for each
    repository given, in order, and nothing is logged. *)
Theorem buildConfig_without_skip_missing (flags : Flags) (run : Runner)
    (name dir : string) (repos : list Project) (revision : string) :
  flagSkipMissing flags = false →
  buildConfig_cfg flags run name dir repos revision =
  ({| IndexName := name;
      Repositories := map (repoSpecOf flags dir revision) repos |}, []).
Proof.
  intros Hoff. rewrite buildConfig_cfg_pair.
  unfold verified, skipLines, revisionMissing. rewrite Hoff. cbn [andb negb].
  assert (Hall : List.filter (λ _ : Project, true) repos = repos).
  { induction repos as [|r l IH]; [done|]. simpl. by rewrite IH. }
  assert (Hnone : List.filter (λ _ : Project, false) repos = []).
  { clear. induction repos as [|r l IH]; [done|]. simpl. exact IH. }
  by rewrite Hall, Hnone.
Qed.

Lemma buildConfig_without_skip_missing_witness :
  buildConfig_cfg defaultFlags (λ _ _, false) "livegrep index" "/repos"
    [examples.legacy; examples.svc] "HEAD" =
  ({| IndexName := "livegrep index";
      Repositories := map (repoSpecOf defaultFlags "/repos" "HEAD")
                          [examples.legacy; examples.svc] |}, []).
Proof.
  apply (buildConfig_without_skip_missing defaultFlags (λ _ _, false)
           "livegrep index" "/repos" [examples.legacy; examples.svc] "HEAD").
  reflexivity.
Defined.

(** X15: every record of the specification lists the one revision asked
    for, carries the URL pattern and the user name of the flags, and has as
    depth the depth flag cut to 32 bits: a value of the signed 32-bit range
    that differs from the flag by a multiple of 2^32, hence the flag itself
    when that is in the range. *)
Theorem buildConfig_record_fields (flags : Flags) (run : Runner) (name dir : string)
    (repos : list Project) (revision : string) :
  Forall
    (λ s, Revisions s = [revision]
          ∧ UrlPattern (Metadata_ s) = flagUrlPattern flags
          ∧ Username (CloneOptions_ s) = flagHTTPUsername flags
          ∧ (- 2 ^ 31 ≤ Depth (CloneOptions_ s) < 2 ^ 31)%Z
          ∧ ((Depth (CloneOptions_ s) - flagDepth flags) mod 2 ^ 32 = 0)%Z
          ∧ ((- 2 ^ 31 ≤ flagDepth flags < 2 ^ 31)%Z →
             Depth (CloneOptions_ s) = flagDepth flags))
    (Repositories (buildConfig_cfg flags run name dir repos revision).1).
Proof.
  rewrite buildConfig_cfg_spec. cbn [Repositories].
  apply Forall_forall. intros s Hs%list_elem_of_In%in_map_iff.
  destruct Hs as (r & <- & _). unfold repoSpecOf. simpl.
  repeat split; auto using int32_congruent, int32_in_range; apply int32_range.
Qed.

(** X16: the directory that the skip-missing check hands to [git] is the
    [Path] that the record names.  A record is in the specification exactly
    when it is the record of a repository given and, if skip-missing is set,
    [git rev-parse --verify] of the revision succeeded in the directory of
    its [Path]. *)
Theorem buildConfig_checks_recorded_path (flags : Flags) (run : Runner)
    (name dir : string) (repos : list Project) (revision : string) (s : RepoSpec) :
  s ∈ Repositories (buildConfig_cfg flags run name dir repos revision).1 ↔
  ∃ r, r ∈ repos
       ∧ s = repoSpecOf flags dir revision r
       ∧ (flagSkipMissing flags = true →
          run "git" ["--git-dir"; Path s; "rev-parse"; "--verify"; revision] = true).
Proof.
  rewrite buildConfig_cfg_spec. cbn [Repositories].
  rewrite list_elem_of_In, in_map_iff. unfold verified.
  split.
  - intros (r & <- & Hr). apply filter_In in Hr as [Hin Hok].
    exists r. split; [by apply list_elem_of_In|]. split; [done|].
    intros Hskip. unfold revisionMissing in Hok. rewrite Hskip in Hok.
    simpl in *. by destruct (run _ _).
  - intros (r & Hin & -> & Hrun). exists r. split; [done|].
    apply filter_In. split; [by apply list_elem_of_In|].
    unfold revisionMissing. destruct (flagSkipMissing flags); [|done].
    simpl in *. by rewrite Hrun.
Qed.

(** ** ReposByName *)

Lemma String_compare_refl s : String.compare s s = Eq.
Proof.
  induction s as [|c s IH]; [done|]. simpl.
  unfold Ascii.compare. by rewrite N.compare_refl.
Qed.

Lemma String_ltb_le_ne a b :
  String.ltb a b = true ↔ String.le a b ∧ a ≠ b.
Proof.
  unfold String.le, String.ltb, String.leb. split.
  - intros Hlt. destruct (String.compare a b) eqn:Hc; try done.
    split; [done|]. intros ->. by rewrite String_compare_refl in Hc.
  - intros [Hle Hne]. destruct (String.compare a b) eqn:Hc; try done.
    by apply String.compare_eq_iff in Hc.
Qed.

Lemma String_ltb_trans a b c :
  String.ltb a b = true → String.ltb b c = true → String.ltb a c = true.
Proof.
  rewrite !String_ltb_le_ne. intros [Hab Hne] [Hbc Hne']. split; [by etrans|].
  intros ->. apply Hne. by apply (anti_symm String.le).
Qed.

(** X17: [Less] is a strict order on the namespace-qualified paths, as
    [sort.Sort] needs it: no descriptor is less than itself, less is
    transitive, and two descriptors are unordered exactly when their paths
    are equal. *)
Theorem ReposByName_Less_strict_order (a b c : Project) :
  ReposByName_Less a a = false
  ∧ (ReposByName_Less a b = true → ReposByName_Less b c = true →
     ReposByName_Less a c = true)
  ∧ (ReposByName_Less a b = false ∧ ReposByName_Less b a = false ↔
     PathWithNamespace a = PathWithNamespace b).
Proof.
  unfold ReposByName_Less. split; [|split].
  - unfold String.ltb. by rewrite String_compare_refl.
  - apply String_ltb_trans.
  - unfold String.ltb.
    rewrite (String.compare_antisym (PathWithNamespace b) (PathWithNamespace a)).
    split.
    + intros [Hab Hba].
      destruct (String.compare (PathWithNamespace a) (PathWithNamespace b)) eqn:Hc;
        try done.
      by apply String.compare_eq_iff.
    + intros ->. by rewrite String_compare_refl.
Qed.

Lemma swapIndex_involutive i j k : swapIndex i j (swapIndex i j k) = k.
Proof. unfold swapIndex. repeat case_decide; congruence. Qed.

#[local] Instance swapIndex_inj i j : Inj (=) (=) (swapIndex i j).
Proof.
  intros k k' Heq. rewrite <- (swapIndex_involutive i j k), Heq.
  apply swapIndex_involutive.
Qed.

(** The list after the two writes holds at every index what the list before
    held at the swapped index. *)
Lemma swap_lookup (r : list Project) (i j : nat) (a b : Project) :
  r !! i = Some a → r !! j = Some b →
  ∀ k, <[j := a]> (<[i := b]> r) !! k = r !! swapIndex i j k.
Proof.
  intros Hi Hj k.
  pose proof (lookup_lt_Some _ _ _ Hi) as Hilen.
  pose proof (lookup_lt_Some _ _ _ Hj) as Hjlen.
  unfold swapIndex. destruct (decide (k = i)) as [->|Hki].
  - destruct (decide (i = j)) as [->|Hij].
    + rewrite list_lookup_insert_eq by (by rewrite length_insert). congruence.
    + rewrite list_lookup_insert_ne by done.
      by rewrite list_lookup_insert_eq, Hj.
  - destruct (decide (k = j)) as [->|Hkj].
    + by rewrite list_lookup_insert_eq, Hi by (by rewrite length_insert).
    + by rewrite !list_lookup_insert_ne.
Qed.

Lemma ReposByName_index_Some r i a :
  ReposByName_index r i = Some a ↔ (0 ≤ i)%Z ∧ r !! Z.to_nat i = Some a.
Proof.
  unfold ReposByName_index. destruct (Z.leb_spec 0 i); split; try done.
  - by intros [_ ?].
  - intros [? _]. lia.
Qed.

Lemma ReposByName_index_in_range r i :
  (0 ≤ i < ReposByName_Len r)%Z ↔ is_Some (ReposByName_index r i).
Proof.
  unfold ReposByName_Len, is_Some. split.
  - intros [Hlo Hhi].
    destruct (lookup_lt_is_Some_2 r (Z.to_nat i) ltac:(lia)) as [a Ha].
    exists a. by apply ReposByName_index_Some.
  - intros [a [Hlo Ha]%ReposByName_index_Some].
    apply lookup_lt_Some in Ha. lia.
Qed.

(** X18: [Swap] on two indices in range exchanges the two elements and
    leaves every other where it was, so the slice keeps its length and its
    elements, and a second swap of the same indices undoes the first; with
    an index out of range it panics and never writes. *)
Theorem ReposByName_Swap_exchanges (r : list Project) (i j : Z) :
  ((0 ≤ i < ReposByName_Len r)%Z ∧ (0 ≤ j < ReposByName_Len r)%Z →
   ∃ r', ReposByName_Swap r i j = Some r'
         ∧ ReposByName_Len r' = ReposByName_Len r
         ∧ r' ≡ₚ r
         ∧ ReposByName_index r' i = ReposByName_index r j
         ∧ ReposByName_index r' j = ReposByName_index r i
         ∧ (∀ k, k ≠ i → k ≠ j → ReposByName_index r' k = ReposByName_index r k)
         ∧ ReposByName_Swap r' i j = Some r)
  ∧ (ReposByName_Swap r i j = None ↔
     ¬ ((0 ≤ i < ReposByName_Len r)%Z ∧ (0 ≤ j < ReposByName_Len r)%Z)).
Proof.
  split.
  - intros [Hi Hj].
    apply ReposByName_index_in_range in Hi as [a Ha].
    apply ReposByName_index_in_range in Hj as [b Hb].
    unfold ReposByName_Swap. rewrite Ha, Hb.
    pose proof Ha as Hia. pose proof Hb as Hjb.
    apply ReposByName_index_Some in Ha as [Hi Ha].
    apply ReposByName_index_Some in Hb as [Hj Hb].
    set (r' := <[Z.to_nat j := a]> (<[Z.to_nat i := b]> r)).
    assert (Hlook : ∀ k, r' !! k = r !! swapIndex (Z.to_nat i) (Z.to_nat j) k)
      by (by apply swap_lookup).
    assert (Hi' : r' !! Z.to_nat i = Some b).
    { rewrite Hlook. unfold swapIndex. by rewrite decide_True. }
    assert (Hj' : r' !! Z.to_nat j = Some a).
    { rewrite Hlook. unfold swapIndex. case_decide; [congruence|].
      by rewrite decide_True. }
    assert (Hib : ReposByName_index r' i = Some b)
      by (apply ReposByName_index_Some; by split).
    assert (Hja : ReposByName_index r' j = Some a)
      by (apply ReposByName_index_Some; by split).
    exists r'. split; [done|].
    split; [unfold ReposByName_Len, r'; by rewrite !length_insert|].
    split.
    { apply Permutation_inj. split; [unfold r'; by rewrite !length_insert|].
      exists (swapIndex (Z.to_nat i) (Z.to_nat j)). split; [apply _ | done]. }
    split; [exact Hib|]. split; [exact Hja|].
    split.
    { intros k Hki Hkj. unfold ReposByName_index.
      destruct (Z.leb_spec 0 k); [|done]. rewrite Hlook. unfold swapIndex.
      rewrite !decide_False by lia. done. }
    rewrite Hib, Hja. f_equal. apply list_eq. intros k.
    rewrite (swap_lookup r' _ _ b a Hi' Hj'), Hlook.
    by rewrite swapIndex_involutive.
  - unfold ReposByName_Swap. split.
    + intros Hnone [Hi Hj].
      apply ReposByName_index_in_range in Hi as [a Ha].
      apply ReposByName_index_in_range in Hj as [b Hb].
      by rewrite Ha, Hb in Hnone.
    + intros Hout.
      destruct (ReposByName_index r i) as [a|] eqn:Ha; [|done].
      destruct (ReposByName_index r j) as [b|] eqn:Hb; [|done].
      exfalso. apply Hout. split; apply ReposByName_index_in_range; eauto.
Qed.

(** ** findBinary *)

Lemma findBinary_loop_first Stat paths name :
  (findBinary_loop Stat paths name = name
   ∧ Forall (λ p, usable Stat p = false) paths)
  ∨ ∃ before p after,
      paths = before ++ p :: after
      ∧ Forall (λ p, usable Stat p = false) before
      ∧ usable Stat p = true
      ∧ findBinary_loop Stat paths name = p.
Proof.
  induction paths as [|p paths IH]; [left; by split|].
  destruct (usable Stat p) eqn:Hp.
  - right. exists [], p, paths. repeat split; [constructor|done|].
    unfold usable in Hp. simpl. destruct (Stat p) as [mode|e]; [|done].
    by rewrite Hp.
  - assert (Hstep : findBinary_loop Stat (p :: paths) name
                    = findBinary_loop Stat paths name).
    { unfold usable in Hp. simpl. destruct (Stat p) as [mode|e]; [|done].
      by rewrite Hp. }
    rewrite Hstep. destruct IH as [[Hname Hall]|(before & q & after & -> & Hb & Hq & Hres)].
    + left. split; [done | by constructor].
    + right. exists (p :: before), q, after. repeat split; [by constructor|done..].
Qed.

(** X19: [findBinary] returns the first of its two candidate paths (the
    name beside the program, then the program's own path with its base name
    replaced) that [os.Stat] finds and that is not a directory; when there
    is none it returns the bare name.  It never returns a path that is
    missing or a directory, other than the bare name. *)
Theorem findBinary_first_usable (Stat : StatFn) (args0 name : string) :
  (findBinary Stat args0 name = name
   ∧ Forall (λ p, usable Stat p = false) (findBinary_paths args0 name))
  ∨ ∃ before p after,
      findBinary_paths args0 name = before ++ p :: after
      ∧ Forall (λ p, usable Stat p = false) before
      ∧ usable Stat p = true
      ∧ findBinary Stat args0 name = p.
Proof. apply findBinary_loop_first. Qed.

Lemma lastIndexFrom_none s c i last :
  noSeparator c s → pathlib.lastIndexFrom s c i last = last.
Proof.
  revert i last. induction s as [|c' s IH]; intros i last Hno; [done|].
  simpl. destruct (Ascii.eqb_spec c' c) as [->|Hne].
  - exfalso. apply Hno. by left.
  - apply IH. intros Hin. apply Hno. by right.
Qed.

Lemma stripTrailingSlashes_none s :
  noSeparator path.slash s → pathlib.stripTrailingSlashes s = s.
Proof.
  induction s as [|c s IH]; intros Hno; [done|].
  simpl. rewrite IH by (intros Hin; apply Hno; by right).
  destruct s; [|done].
  unfold path.isSlash. destruct (Ascii.eqb_spec c path.slash) as [->|Hne]; [|done].
  exfalso. apply Hno. by left.
Qed.

Lemma String_prefix_refl s : String.prefix s s = true.
Proof. induction s as [|c s IH]; [done|]. simpl. by destruct (ascii_dec c c). Qed.

Lemma replaceFrom_all_skipped (s old new : string) (skip : nat) :
  (String.length s ≤ skip)%nat → pathlib.replaceFrom s old new skip = "".
Proof.
  revert skip. induction s as [|c s IH]; intros skip Hlen; [done|].
  simpl in *. destruct skip as [|skip]; [lia|]. apply IH. lia.
Qed.

Lemma ReplaceAll_whole s new :
  s ≠ "" → pathlib.ReplaceAll s s new = new.
Proof.
  intros Hne. unfold pathlib.ReplaceAll.
  destruct (String.eqb_spec s new) as [->|Hnew]; [done|].
  destruct (String.eqb_spec s "") as [->|_]; [done|].
  destruct s as [|c s]; [done|].
  cbn [pathlib.replaceFrom]. rewrite String_prefix_refl.
  rewrite replaceFrom_all_skipped by (simpl; lia).
  clear. induction new as [|c' new IH]; [done|].
  change (String c' new +:+ "") with (String c' (new +:+ "")). by rewrite IH.
Qed.

Lemma findBinary_paths_bare args0 :
  args0 ≠ "" → noSeparator path.slash args0 →
  findBinary_paths args0 "livegrep-fetch-reindex"
  = ["livegrep-fetch-reindex"; "livegrep-fetch-reindex"].
Proof.
  intros Hne Hno. unfold findBinary_paths.
  assert (Hlast : pathlib.LastIndexByte args0 path.slash = (-1)%Z)
    by (by apply lastIndexFrom_none).
  assert (Hdir : pathlib.Dir args0 = ".").
  { unfold pathlib.Dir, pathlib.Split. rewrite Hlast. cbn [fst].
    unfold pathlib.slice. simpl. by destruct args0. }
  assert (Hbase : pathlib.Base args0 = args0).
  { unfold pathlib.Base.
    destruct (String.eqb_spec args0 "") as [|_]; [done|].
    rewrite stripTrailingSlashes_none, Hlast by done. simpl.
    by destruct (String.eqb_spec args0 ""). }
  rewrite Hdir, Hbase, ReplaceAll_whole by done. reflexivity.
Qed.

(** X20: when the program was started by a bare name (no slash in
    [os.Args[0]], found through the search path), [findBinary] gives the
    bare name [livegrep-fetch-reindex] whatever the file system holds: both
    candidates are that name, so the search path decides again. *)
Theorem findBinary_bare_name (Stat : StatFn) (args0 : string) :
  args0 ≠ "" → noSeparator path.slash args0 →
  findBinary Stat args0 "livegrep-fetch-reindex" = "livegrep-fetch-reindex".
Proof.
  intros Hne Hno. unfold findBinary. rewrite findBinary_paths_bare by done.
  cbn [findBinary_loop].
  destruct (Stat "livegrep-fetch-reindex") as [mode|e]; [|done].
  by destruct (Z.land mode ModeDir =? 0)%Z.
Qed.

Lemma findBinary_bare_name_witness :
  findBinary (λ _, Err "stat: no such file or directory")
    "livegrep-gitlab-reindex" "livegrep-fetch-reindex"
  = "livegrep-fetch-reindex".
Proof.
  apply (findBinary_bare_name _ "livegrep-gitlab-reindex"); [discriminate|].
  unfold noSeparator. simpl. intros H.
  repeat (destruct H as [H|H]; [discriminate H|]). exact H.
Defined.

(** ** main *)

Lemma noEffect_Sent sent : Forall (λ ev, isEffect ev = false) (map Sent sent).
Proof. induction sent; by constructor. Qed.

Lemma noEffect_Logged lines : Forall (λ ev, isEffect ev = false) (map Logged lines).
Proof. induction lines; by constructor. Qed.

Lemma noEffect_fatal line : Forall (λ ev, isEffect ev = false) (fatal line).
Proof. by repeat constructor. Qed.

Lemma noSent_fatal line : Forall (λ ev, isSent ev = false) (fatal line).
Proof. by repeat constructor. Qed.

Lemma last_fatal before line : last (before ++ fatal line) = Some (Exit 1).
Proof. by rewrite last_app. Qed.

Lemma not_elem_of_noEffect ev trace :
  isEffect ev = true → Forall (λ ev, isEffect ev = false) trace → ev ∉ trace.
Proof.
  intros Hev Hall Hin. rewrite Forall_forall in Hall.
  apply Hall in Hin. congruence.
Qed.

Lemma prelude_Sent sent : Forall (λ ev, isPrelude ev = true) (map Sent sent).
Proof. induction sent; by constructor. Qed.

Lemma prelude_Logged lines : Forall (λ ev, isPrelude ev = true) (map Logged lines).
Proof. induction lines; by constructor. Qed.

Lemma prelude_buildConfig_trace flags run dir revision repos :
  Forall (λ ev, isPrelude ev = true) (buildConfig_trace flags run dir revision repos).
Proof.
  unfold buildConfig_trace. induction repos as [|r repos IH]; [constructor|].
  cbn [flat_map]. apply Forall_app. split; [|exact IH].
  destruct (flagSkipMissing flags); [|constructor].
  destruct (run "git" _); by repeat constructor.
Qed.

Lemma prelude_main_prelude mf w repos sent ignorelist :
  Forall (λ ev, isPrelude ev = true) (main_prelude mf w repos sent ignorelist).
Proof.
  unfold main_prelude. repeat (apply Forall_app; split);
    auto using prelude_Sent, prelude_Logged, prelude_buildConfig_trace.
Qed.


Lemma not_elem_of_prelude ev trace :
  isPrelude ev = false → Forall (λ ev, isPrelude ev = true) trace → ev ∉ trace.
Proof.
  intros Hev Hall Hin. rewrite Forall_forall in Hall.
  apply Hall in Hin. congruence.
Qed.

Lemma gitCommands_app trace1 trace2 :
  gitCommands (trace1 ++ trace2) = gitCommands trace1 ++ gitCommands trace2.
Proof. apply flat_map_app. Qed.

Lemma gitCommands_Sent sent : gitCommands (map Sent sent) = [].
Proof. induction sent; [done|]. exact IHsent. Qed.

Lemma gitCommands_Logged lines : gitCommands (map Logged lines) = [].
Proof. induction lines; [done|]. exact IHlines. Qed.

Lemma loggedLines_app trace1 trace2 :
  loggedLines (trace1 ++ trace2) = loggedLines trace1 ++ loggedLines trace2.
Proof. apply flat_map_app. Qed.

Lemma loggedLines_Sent sent : loggedLines (map Sent sent) = [].
Proof. induction sent; [done|]. exact IHsent. Qed.

Lemma loggedLines_Logged lines : loggedLines (map Logged lines) = lines.
Proof. induction lines; [done|]. cbn. by f_equal. Qed.

(** The [git] commands of the loop of [buildConfig]: one for every
    repository handed to it, in order, when skip-missing is set, and none
    otherwise. *)
Lemma gitCommands_buildConfig_trace flags run dir revision repos :
  gitCommands (buildConfig_trace flags run dir revision repos)
  = if flagSkipMissing flags then map (revParseArgs dir revision) repos else [].
Proof.
  unfold buildConfig_trace. induction repos as [|r repos IH].
  - by destruct (flagSkipMissing flags).
  - cbn [flat_map]. rewrite gitCommands_app, IH.
    destruct (flagSkipMissing flags); [|done].
    by destruct (run "git" _).
Qed.

(** The lines that the loop logs are the log of [buildConfig]. *)
Lemma loggedLines_buildConfig_trace flags run name dir revision repos :
  loggedLines (buildConfig_trace flags run dir revision repos)
  = (buildConfig flags run name dir repos revision).2.
Proof.
  unfold buildConfig. rewrite buildConfig_cfg_pair. cbn [snd].
  unfold buildConfig_trace, skipLines, revisionMissing, revParseArgs.
  induction repos as [|r repos IH]; [done|].
  cbn [flat_map List.filter]. rewrite loggedLines_app, IH.
  destruct (flagSkipMissing flags); [|done]. cbn [andb].
  by destruct (run "git" _).
Qed.

Lemma gitCommands_main_prelude mf w repos sent ignorelist :
  gitCommands (main_prelude mf w repos sent ignorelist)
  = if flagSkipMissing (helperFlags mf)
    then map (revParseArgs (flagRepoDir mf) (flagRevision mf))
           (main_repos mf w repos ignorelist)
    else [].
Proof.
  unfold main_prelude.
  by rewrite !gitCommands_app, gitCommands_Sent, gitCommands_Logged,
    gitCommands_buildConfig_trace.
Qed.

Lemma prelude_noGit_noEffect trace :
  Forall (λ ev, isPrelude ev = true) trace → gitCommands trace = [] →
  Forall (λ ev, isEffect ev = false) trace.
Proof.
  induction 1 as [|ev trace Hev _ IH]; [constructor|].
  destruct ev; try discriminate; intros Hgit; constructor; auto.
Qed.

(** An event of a kind that a part of the trace has none of is not in
    that part. *)
Ltac absent Hin :=
  first [ by eapply not_elem_of_prelude in Hin
        | by eapply not_elem_of_noEffect in Hin ].

(** The runs of [main], by the stage at which they end. *)
Lemma main_cases mf w trace :
  main mf w = Some trace →
  let flags := helperFlags mf in
  (∃ err, main_ignorelist mf w = Err err
          ∧ trace = fatal ("loading " +:+ flagIgnorelist mf +:+ ": " +:+ err))
  ∨ (∃ err, gitlab_NewClient w (flagGitlabToken flags) (flagApiBaseUrl mf) = Some err
            ∧ trace = fatal ("creating gitlab client: " +:+ err))
  ∨ (∃ err sent rest,
        loadRepos flags (flagGroups mf) (gitlab_answers w) = Some (Err err, sent, rest)
        ∧ trace = map Sent sent ++ fatal err)
  ∨ ∃ ignorelist repos sent rest before,
      main_ignorelist mf w = Ok ignorelist
      ∧ gitlab_NewClient w (flagGitlabToken flags) (flagApiBaseUrl mf) = None
      ∧ loadRepos flags (flagGroups mf) (gitlab_answers w) = Some (Ok repos, sent, rest)
      ∧ before = main_prelude mf w repos sent ignorelist
      ∧ ((∃ err, trace = before ++ fatal err
                 ∧ (buildConfig flags (git_Run w) (flagName mf) (flagRepoDir mf)
                      (main_repos mf w repos ignorelist) (flagRevision mf)).1 = Err err)
         ∨ ∃ config,
             (buildConfig flags (git_Run w) (flagName mf) (flagRepoDir mf)
                (main_repos mf w repos ignorelist) (flagRevision mf)).1 = Ok config
             ∧ ((∃ err, os_MkdirAll w (pathlib.Dir (main_configPath mf)) 493 = Some err
                        ∧ trace = before
                                  ++ [MkdirAll (pathlib.Dir (main_configPath mf)) 493]
                                  ++ fatal err)
                ∨ (os_MkdirAll w (pathlib.Dir (main_configPath mf)) 493 = None
                   ∧ ((∃ err, ioutil_WriteFile w (main_configPath mf) config 420 = Some err
                              ∧ trace = before
                                  ++ [MkdirAll (pathlib.Dir (main_configPath mf)) 493;
                                      WriteFile (main_configPath mf) config 420]
                                  ++ fatal err)
                      ∨ (ioutil_WriteFile w (main_configPath mf) config 420 = None
                         ∧ ∃ line after,
                             trace = before
                               ++ [MkdirAll (pathlib.Dir (main_configPath mf)) 493;
                                   WriteFile (main_configPath mf) config 420]
                               ++ [Logged line;
                                   Run (main_fetchReindex mf w)
                                     (main_args mf (flagIndexPath mf) (main_configPath mf))
                                     (main_env mf w)]
                               ++ after
                             ∧ match cmd_Run w (main_fetchReindex mf w)
                                       (main_args mf (flagIndexPath mf)
                                          (main_configPath mf))
                                       (main_env mf w) with
                               | Some err =>
                                   after = fatal ("livegrep-fetch-reindex:  " +:+ err)
                               | None => after = []
                               end))))).
Proof.
  intros Hmain flags. unfold main in Hmain. fold flags in Hmain.
  destruct (main_ignorelist mf w) as [ignorelist|err] eqn:Hign;
    [|left; exists err; split; [done | by inversion Hmain]].
  destruct (gitlab_NewClient w _ _) as [err|] eqn:Hclient;
    [right; left; exists err; split; [done | by inversion Hmain]|].
  destruct (loadRepos flags _ _) as [[[[repos|err] sent] rest]|] eqn:Hload;
    [| right; right; left; exists err, sent, rest; split; [done | by inversion Hmain]
     | done].
  right; right; right.
  destruct (filterRepos repos ignorelist _ _) as [filtered filterLog] eqn:Hfilter.
  assert (Hrepos : main_repos mf w repos ignorelist = sort_Sort w filtered).
  { unfold main_repos. fold flags. by rewrite Hfilter. }
  assert (Hprelude : main_prelude mf w repos sent ignorelist
                     = map Sent sent ++ map Logged filterLog
                       ++ buildConfig_trace flags (git_Run w) (flagRepoDir mf)
                            (flagRevision mf) (sort_Sort w filtered)).
  { unfold main_prelude. fold flags. by rewrite Hrepos, Hfilter. }
  destruct (buildConfig flags (git_Run w) (flagName mf) (flagRepoDir mf)
              (sort_Sort w filtered) (flagRevision mf))
    as [config buildLog] eqn:Hbuild.
  exists ignorelist, repos, sent, rest, (main_prelude mf w repos sent ignorelist).
  split; [done|]. split; [done|]. split; [done|]. split; [done|].
  rewrite Hprelude.
  rewrite Hrepos, Hbuild. cbn [fst].
  destruct config as [config|err];
    [|left; exists err; split; [by inversion Hmain | done]].
  right. exists config. split; [done|].
  unfold writeConfig in Hmain. fold (main_configPath mf) in Hmain.
  destruct (os_MkdirAll w _ 493) as [err|] eqn:Hmkdir;
    [left; exists err; split; [done | by inversion Hmain]|].
  right. split; [done|].
  destruct (ioutil_WriteFile w _ config 420) as [err|] eqn:Hwrite;
    [left; exists err; split; [done | by inversion Hmain]|].
  right. split; [done|].
  fold (main_fetchReindex mf w) in Hmain.
  inversion Hmain as [Htrace]. eexists _, _. split; [reflexivity|].
  by destruct (cmd_Run w _ _ _).
Qed.

Lemma elem_of_fatal ev line : ev ∈ fatal line → ev = Logged line ∨ ev = Exit 1.
Proof. unfold fatal. rewrite !elem_of_cons, elem_of_nil. tauto. Qed.

(** A run that gets as far as running the reindexer. *)
Lemma main_run_inv mf w trace cmd args env :
  main mf w = Some trace → Run cmd args env ∈ trace →
  ∃ ignorelist repos sent rest before config line after,
    main_ignorelist mf w = Ok ignorelist
    ∧ loadRepos (helperFlags mf) (flagGroups mf) (gitlab_answers w)
      = Some (Ok repos, sent, rest)
    ∧ (buildConfig (helperFlags mf) (git_Run w) (flagName mf) (flagRepoDir mf)
         (main_repos mf w repos ignorelist) (flagRevision mf)).1 = Ok config
    ∧ os_MkdirAll w (pathlib.Dir (main_configPath mf)) 493 = None
    ∧ ioutil_WriteFile w (main_configPath mf) config 420 = None
    ∧ trace = before
              ++ [MkdirAll (pathlib.Dir (main_configPath mf)) 493;
                  WriteFile (main_configPath mf) config 420;
                  Logged line; Run cmd args env]
              ++ after
    ∧ before = main_prelude mf w repos sent ignorelist
    ∧ Forall (λ ev, isEffect ev = false) after
    ∧ cmd = main_fetchReindex mf w
    ∧ args = main_args mf (flagIndexPath mf) (main_configPath mf)
    ∧ env = main_env mf w.
Proof.
  intros Hmain Hin.
  destruct (main_cases mf w trace Hmain)
    as [(err & _ & ->)
       |[(err & _ & ->)
        |[(err & sent & rest & _ & ->)
         |(ignorelist & repos & sent & rest & before & Hign & _ & Hload & Hbefore
           & Hrest)]]];
    [| | |pose proof (prelude_main_prelude mf w repos sent ignorelist) as Hpre;
          rewrite <- Hbefore in Hpre].
  - apply elem_of_fatal in Hin as [?|?]; discriminate.
  - apply elem_of_fatal in Hin as [?|?]; discriminate.
  - apply elem_of_app in Hin as [Hin|Hin].
    + by eapply not_elem_of_noEffect in Hin; [|done|apply noEffect_Sent].
    + apply elem_of_fatal in Hin as [?|?]; discriminate.
  - destruct Hrest as [(err & -> & _)|(config & Hbuild & Hrest)].
    { apply elem_of_app in Hin as [Hin|Hin].
      - absent Hin.
      - apply elem_of_fatal in Hin as [?|?]; discriminate. }
    destruct Hrest as [(err & _ & ->)|(Hmkdir & Hrest)].
    { rewrite !elem_of_app, elem_of_cons, elem_of_nil in Hin.
      destruct Hin as [Hin|[[?|[]]|Hin]]; [|discriminate|].
      - absent Hin.
      - apply elem_of_fatal in Hin as [?|?]; discriminate. }
    destruct Hrest as [(err & _ & ->)|(Hwrite & line & after & -> & Hafter)].
    { rewrite !elem_of_app, !elem_of_cons, elem_of_nil in Hin.
      destruct Hin as [Hin|[[?|[?|[]]]|Hin]]; [|discriminate..|].
      - absent Hin.
      - apply elem_of_fatal in Hin as [?|?]; discriminate. }
    assert (Hnoafter : Forall (λ ev, isEffect ev = false) after).
    { destruct (cmd_Run w _ _ _); subst after; [apply noEffect_fatal | constructor]. }
    rewrite !elem_of_app, !elem_of_cons, !elem_of_nil in Hin.
    destruct Hin as [Hin|[[?|[?|[]]]|[[?|[Heq|[]]]|Hin]]]; try discriminate.
    + absent Hin.
    + inversion Heq; subst cmd args env.
      by exists ignorelist, repos, sent, rest, before, config, line, after.
    + absent Hin.
Qed.

(** X21: when a page fetch fails, [main] is fatal with the error of the
    service: whatever pages came before, it creates no directory, writes no
    file and runs no command, and it ends with exit status 1.  With the
    ignore list and the client in order, all it does is to send its requests
    and to log the error. *)
Theorem main_discovery_error (mf : MainFlags) (w : World) (err : string)
    (sent : list Request) (rest : list PageResponse) :
  loadRepos (helperFlags mf) (flagGroups mf) (gitlab_answers w)
    = Some (Err err, sent, rest) →
  ∃ trace,
    main mf w = Some trace
    ∧ Forall (λ ev, isEffect ev = false) trace
    ∧ last trace = Some (Exit 1)
    ∧ (∀ ignorelist,
         main_ignorelist mf w = Ok ignorelist →
         gitlab_NewClient w (flagGitlabToken (helperFlags mf)) (flagApiBaseUrl mf)
           = None →
         trace = map Sent sent ++ [Logged err; Exit 1]).
Proof.
  intros Hload. unfold main.
  destruct (main_ignorelist mf w) as [ignorelist|err0] eqn:Hign.
  - destruct (gitlab_NewClient w _ _) as [err1|] eqn:Hclient.
    + eexists. split; [done|]. split; [apply noEffect_fatal|]. split; [done|].
      intros ? _ ?. discriminate.
    + rewrite Hload. eexists. split; [done|].
      split; [apply Forall_app; split; [apply noEffect_Sent | apply noEffect_fatal]|].
      split; [apply last_fatal|]. done.
  - eexists. split; [done|]. split; [apply noEffect_fatal|]. split; [done|].
    intros ? ?. discriminate.
Qed.

Lemma main_discovery_error_witness :
  ∃ trace,
    main worlds.flags worlds.failing = Some trace
    ∧ Forall (λ ev, isEffect ev = false) trace
    ∧ last trace = Some (Exit 1)
    ∧ (∀ ignorelist,
         main_ignorelist worlds.flags worlds.failing = Ok ignorelist →
         gitlab_NewClient worlds.failing
           (flagGitlabToken (helperFlags worlds.flags)) (flagApiBaseUrl worlds.flags)
           = None →
         trace = map Sent [ListProjects false 100 1; ListProjects false 100 2]
                 ++ [Logged "502 Bad Gateway"; Exit 1]).
Proof.
  apply (main_discovery_error worlds.flags worlds.failing "502 Bad Gateway"
           [ListProjects false 100 1; ListProjects false 100 2] []).
  reflexivity.
Defined.

(** X22: when the ignore-list file cannot be read, or the client cannot be
    created, [main] logs one line and exits with status 1: it has sent no
    request, written nothing and run nothing. *)
Theorem main_setup_error (mf : MainFlags) (w : World) (err : string) :
  (flagIgnorelist mf ≠ "" ∧ ioutil_ReadFile w (flagIgnorelist mf) = Err err)
  ∨ gitlab_NewClient w (flagGitlabToken (helperFlags mf)) (flagApiBaseUrl mf)
    = Some err →
  ∃ line, main mf w = Some [Logged line; Exit 1].
Proof.
  intros Hfail. unfold main.
  destruct (main_ignorelist mf w) as [ignorelist|err0] eqn:Hign; [|by eexists].
  destruct Hfail as [[Hflag Hread]|Hclient].
  - unfold main_ignorelist in Hign.
    destruct (String.eqb_spec (flagIgnorelist mf) ""); [done|].
    by rewrite (loadIgnorelist_err _ _ _ Hread) in Hign.
  - rewrite Hclient. by eexists.
Qed.

Lemma main_setup_error_witness :
  ∃ line,
    main {| helperFlags := defaultFlags; flagCodesearch := ""; flagFetchReindex := "";
            flagApiBaseUrl := "https://gitlab.example.com/api/v4";
            flagRepoDir := "/repos"; flagIgnorelist := "missing.txt";
            flagIndexPath := "/repos/livegrep.idx"; flagRevision := "HEAD";
            flagName := "livegrep index"; flagNumRepoUpdateWorkers := "8";
            flagRevparse := true; flagNoIndex := false; flagGroups := [] |}
         worlds.fine
    = Some [Logged line; Exit 1].
Proof.
  apply (main_setup_error _ worlds.fine "open: no such file or directory").
  left. split; [discriminate | reflexivity].
Defined.

(** X23: the reindexer is run only after the specification was written.
    In a run that reaches the command, the directory of the specification
    was made and the file written, both without error, just before, and the
    path of the file written is the last argument of the command.  What
    happens before the directory is made is known event by event: the
    requests to the service, the log lines of the filter, and the loop of
    [buildConfig], which under skip-missing runs one
    [git rev-parse --verify] for every repository that reached it, in
    order, each followed by its log line when it fails, and runs nothing
    otherwise.  So before the write there are only requests, log lines and
    those [git] commands; without skip-missing nothing changed the disk or
    was run before.  After the reindexer nothing changes the disk or is
    run. *)
Theorem main_runs_after_writing (mf : MainFlags) (w : World) (trace : list Event)
    (cmd : string) (args : list string) (env : option (list string)) :
  main mf w = Some trace → Run cmd args env ∈ trace →
  ∃ ignorelist repos sent rest before config line after,
    main_ignorelist mf w = Ok ignorelist
    ∧ loadRepos (helperFlags mf) (flagGroups mf) (gitlab_answers w)
      = Some (Ok repos, sent, rest)
    ∧ trace = before
              ++ [MkdirAll (pathlib.Dir (main_configPath mf)) 493;
                  WriteFile (main_configPath mf) config 420;
                  Logged line; Run cmd args env]
              ++ after
    ∧ before = map Sent sent
               ++ map Logged
                    (filterRepos repos ignorelist (negb (flagForks (helperFlags mf)))
                       (negb (flagArchived (helperFlags mf)))).2
               ++ buildConfig_trace (helperFlags mf) (git_Run w) (flagRepoDir mf)
                    (flagRevision mf) (main_repos mf w repos ignorelist)
    ∧ Forall (λ ev, isPrelude ev = true) before
    ∧ gitCommands before
      = (if flagSkipMissing (helperFlags mf)
         then map (revParseArgs (flagRepoDir mf) (flagRevision mf))
                (main_repos mf w repos ignorelist)
         else [])
    ∧ (flagSkipMissing (helperFlags mf) = false →
       Forall (λ ev, isEffect ev = false) before)
    ∧ Forall (λ ev, isEffect ev = false) after
    ∧ os_MkdirAll w (pathlib.Dir (main_configPath mf)) 493 = None
    ∧ ioutil_WriteFile w (main_configPath mf) config 420 = None
    ∧ last args = Some (main_configPath mf).
Proof.
  intros Hmain Hin.
  destruct (main_run_inv mf w trace cmd args env Hmain Hin)
    as (ignorelist & repos & sent & rest & before & config & line & after
        & Hign & Hload & _ & Hmkdir & Hwrite & -> & Hbefore & Hafter & _ & -> & _).
  exists ignorelist, repos, sent, rest, before, config, line, after.
  pose proof (prelude_main_prelude mf w repos sent ignorelist) as Hpre.
  pose proof (gitCommands_main_prelude mf w repos sent ignorelist) as Hgit.
  rewrite <- Hbefore in Hpre, Hgit.
  split; [done|]. split; [done|]. split; [done|]. split; [done|].
  split; [done|]. split; [done|].
  split.
  { intros Hoff. apply prelude_noGit_noEffect; [done|]. by rewrite Hgit, Hoff. }
  split; [done|]. split; [done|]. split; [done|].
  unfold main_args. apply last_snoc.
Qed.

Lemma main_runs_after_writing_witness :
  ∃ ignorelist repos sent rest before config line after,
    main_ignorelist worlds.flagsSkipMissing worlds.legacyMissing = Ok ignorelist
    ∧ loadRepos (helperFlags worlds.flagsSkipMissing)
        (flagGroups worlds.flagsSkipMissing) (gitlab_answers worlds.legacyMissing)
      = Some (Ok repos, sent, rest)
    ∧ default [] (main worlds.flagsSkipMissing worlds.legacyMissing)
      = before
        ++ [MkdirAll (pathlib.Dir (main_configPath worlds.flagsSkipMissing)) 493;
            WriteFile (main_configPath worlds.flagsSkipMissing) config 420;
            Logged line;
            Run "/opt/livegrep/bin/livegrep-fetch-reindex"
              ["--out"; "/repos/livegrep.idx"; "--codesearch"; "";
               "--num-workers"; "8"; "--revparse"; "--skip-missing";
               "/repos/livegrep.json"] None]
        ++ after
    ∧ before = map Sent sent
               ++ map Logged
                    (filterRepos repos ignorelist
                       (negb (flagForks (helperFlags worlds.flagsSkipMissing)))
                       (negb (flagArchived (helperFlags worlds.flagsSkipMissing)))).2
               ++ buildConfig_trace (helperFlags worlds.flagsSkipMissing)
                    (git_Run worlds.legacyMissing)
                    (flagRepoDir worlds.flagsSkipMissing)
                    (flagRevision worlds.flagsSkipMissing)
                    (main_repos worlds.flagsSkipMissing worlds.legacyMissing
                       repos ignorelist)
    ∧ Forall (λ ev, isPrelude ev = true) before
    ∧ gitCommands before
      = (if flagSkipMissing (helperFlags worlds.flagsSkipMissing)
         then map (revParseArgs (flagRepoDir worlds.flagsSkipMissing)
                     (flagRevision worlds.flagsSkipMissing))
                (main_repos worlds.flagsSkipMissing worlds.legacyMissing
                   repos ignorelist)
         else [])
    ∧ (flagSkipMissing (helperFlags worlds.flagsSkipMissing) = false →
       Forall (λ ev, isEffect ev = false) before)
    ∧ Forall (λ ev, isEffect ev = false) after
    ∧ os_MkdirAll worlds.legacyMissing
        (pathlib.Dir (main_configPath worlds.flagsSkipMissing)) 493 = None
    ∧ ioutil_WriteFile worlds.legacyMissing
        (main_configPath worlds.flagsSkipMissing) config 420 = None
    ∧ last ["--out"; "/repos/livegrep.idx"; "--codesearch"; "";
            "--num-workers"; "8"; "--revparse"; "--skip-missing";
            "/repos/livegrep.json"]
      = Some (main_configPath worlds.flagsSkipMissing).
Proof.
  apply (main_runs_after_writing worlds.flagsSkipMissing worlds.legacyMissing
           (default [] (main worlds.flagsSkipMissing worlds.legacyMissing))
           "/opt/livegrep/bin/livegrep-fetch-reindex"
           ["--out"; "/repos/livegrep.idx"; "--codesearch"; "";
            "--num-workers"; "8"; "--revparse"; "--skip-missing";
            "/repos/livegrep.json"] None).
  - vm_compute. reflexivity.
  - vm_compute. do 7 apply list_elem_of_further. apply list_elem_of_here.
Defined.

(** The run of the scenario with skip-missing, event by event: the
    request, the two [git] commands in the order of the names, the log line
    of the clone without the revision, then the write and the reindexer. *)
Example main_skip_missing_trace :
  ∃ config,
    main worlds.flagsSkipMissing worlds.legacyMissing
    = Some [Sent (ListProjects false 100 1);
            Git ["--git-dir"; "/repos/teamA/legacy"; "rev-parse"; "--verify"; "HEAD"];
            Logged "Skipping missing revision repo=teamA/legacy rev=HEAD";
            Git ["--git-dir"; "/repos/teamA/svc"; "rev-parse"; "--verify"; "HEAD"];
            MkdirAll "/repos" 493;
            WriteFile "/repos/livegrep.json" config 420;
            Logged ("Running: /opt/livegrep/bin/livegrep-fetch-reindex "
                    +:+ "[--out /repos/livegrep.idx --codesearch  --num-workers 8 "
                    +:+ "--revparse --skip-missing /repos/livegrep.json]");
            Run "/opt/livegrep/bin/livegrep-fetch-reindex"
              ["--out"; "/repos/livegrep.idx"; "--codesearch"; "";
               "--num-workers"; "8"; "--revparse"; "--skip-missing";
               "/repos/livegrep.json"] None].
Proof. eexists. vm_compute. reflexivity. Qed.

(** X24: the command that [main] runs.  The program is the one of
    [-fetch-reindex], or what [findBinary] finds when that flag is empty.
    The arguments are the output path, the codesearch path and the number
    of workers, then [--no-index], [--revparse] and [--skip-missing] for
    those of the three flags that are set, in this order, then the path of
    the specification.  The child inherits the environment when no token is
    configured, and otherwise gets the environment with [GITLAB_TOKEN=] and
    the token added at its end. *)
Theorem main_command_line (mf : MainFlags) (w : World) (trace : list Event)
    (cmd : string) (args : list string) (env : option (list string)) :
  main mf w = Some trace → Run cmd args env ∈ trace →
  cmd = (if String.eqb (flagFetchReindex mf) ""
         then findBinary (os_Stat w) (os_Args0 w) "livegrep-fetch-reindex"
         else flagFetchReindex mf)
  ∧ args = ["--out"; flagIndexPath mf;
            "--codesearch"; flagCodesearch mf;
            "--num-workers"; flagNumRepoUpdateWorkers mf]
           ++ (if flagNoIndex mf then ["--no-index"] else [])
           ++ (if flagRevparse mf then ["--revparse"] else [])
           ++ (if flagSkipMissing (helperFlags mf) then ["--skip-missing"] else [])
           ++ [path.Join [flagRepoDir mf; "livegrep.json"]]
  ∧ env = (if String.eqb (flagGitlabToken (helperFlags mf)) "" then None
           else Some (os_Environ w
                      ++ ["GITLAB_TOKEN=" +:+ flagGitlabToken (helperFlags mf)])).
Proof.
  intros Hmain Hin.
  destruct (main_run_inv mf w trace cmd args env Hmain Hin)
    as (ignorelist & repos & sent & rest & before & config & line & after
        & _ & _ & _ & _ & _ & _ & _ & _ & -> & -> & ->).
  split; [done|]. split; [|done].
  unfold main_args, main_configPath.
  by destruct (flagNoIndex mf), (flagRevparse mf), (flagSkipMissing (helperFlags mf)).
Qed.

Lemma main_command_line_witness :
  "/opt/livegrep/bin/livegrep-fetch-reindex"
  = (if String.eqb (flagFetchReindex worlds.flags) ""
     then findBinary (os_Stat worlds.fine) (os_Args0 worlds.fine)
            "livegrep-fetch-reindex"
     else flagFetchReindex worlds.flags)
  ∧ ["--out"; "/repos/livegrep.idx"; "--codesearch"; "";
     "--num-workers"; "8"; "--revparse"; "/repos/livegrep.json"]
    = ["--out"; flagIndexPath worlds.flags;
       "--codesearch"; flagCodesearch worlds.flags;
       "--num-workers"; flagNumRepoUpdateWorkers worlds.flags]
      ++ (if flagNoIndex worlds.flags then ["--no-index"] else [])
      ++ (if flagRevparse worlds.flags then ["--revparse"] else [])
      ++ (if flagSkipMissing (helperFlags worlds.flags)
          then ["--skip-missing"] else [])
      ++ [path.Join [flagRepoDir worlds.flags; "livegrep.json"]]
  ∧ None
    = (if String.eqb (flagGitlabToken (helperFlags worlds.flags)) "" then None
       else Some (os_Environ worlds.fine
                  ++ ["GITLAB_TOKEN=" +:+ flagGitlabToken (helperFlags worlds.flags)])).
Proof.
  apply (main_command_line worlds.flags worlds.fine
           (default [] (main worlds.flags worlds.fine))).
  - vm_compute. reflexivity.
  - vm_compute. do 4 apply list_elem_of_further. apply list_elem_of_here.
Defined.

(** A run that gets as far as writing the specification. *)
Lemma main_write_inv mf w trace file config perm :
  main mf w = Some trace → WriteFile file config perm ∈ trace →
  file = main_configPath mf ∧ perm = 420%Z
  ∧ ∃ ignorelist repos sent rest,
      main_ignorelist mf w = Ok ignorelist
      ∧ loadRepos (helperFlags mf) (flagGroups mf) (gitlab_answers w)
        = Some (Ok repos, sent, rest)
      ∧ (buildConfig (helperFlags mf) (git_Run w) (flagName mf) (flagRepoDir mf)
           (main_repos mf w repos ignorelist) (flagRevision mf)).1 = Ok config.
Proof.
  intros Hmain Hin.
  destruct (main_cases mf w trace Hmain)
    as [(err & _ & ->)
       |[(err & _ & ->)
        |[(err & sent & rest & _ & ->)
         |(ignorelist & repos & sent & rest & before & Hign & _ & Hload & Hbefore
           & Hrest)]]];
    [| | |pose proof (prelude_main_prelude mf w repos sent ignorelist) as Hpre;
          rewrite <- Hbefore in Hpre].
  - apply elem_of_fatal in Hin as [?|?]; discriminate.
  - apply elem_of_fatal in Hin as [?|?]; discriminate.
  - apply elem_of_app in Hin as [Hin|Hin].
    + by eapply not_elem_of_noEffect in Hin; [|done|apply noEffect_Sent].
    + apply elem_of_fatal in Hin as [?|?]; discriminate.
  - destruct Hrest as [(err & -> & _)|(config' & Hbuild & Hrest)].
    { apply elem_of_app in Hin as [Hin|Hin].
      - absent Hin.
      - apply elem_of_fatal in Hin as [?|?]; discriminate. }
    destruct Hrest as [(err & _ & ->)|(Hmkdir & Hrest)].
    { rewrite !elem_of_app, elem_of_cons, elem_of_nil in Hin.
      destruct Hin as [Hin|[[?|[]]|Hin]]; [|discriminate|].
      - absent Hin.
      - apply elem_of_fatal in Hin as [?|?]; discriminate. }
    assert (Hfound : file = main_configPath mf ∧ perm = 420%Z ∧ config = config').
    { destruct Hrest as [(err & _ & ->)|(Hwrite & line & after & -> & Hafter)].
      - rewrite !elem_of_app, !elem_of_cons, elem_of_nil in Hin.
        destruct Hin as [Hin|[[?|[Heq|[]]]|Hin]]; [|discriminate| |].
        + absent Hin.
        + by inversion Heq.
        + apply elem_of_fatal in Hin as [?|?]; discriminate.
      - assert (Hnoafter : Forall (λ ev, isEffect ev = false) after).
        { destruct (cmd_Run w _ _ _); subst after;
            [apply noEffect_fatal | constructor]. }
        rewrite !elem_of_app, !elem_of_cons, !elem_of_nil in Hin.
        destruct Hin as [Hin|[[?|[Heq|[]]]|[[?|[?|[]]]|Hin]]]; try discriminate.
        + absent Hin.
        + by inversion Heq.
        + absent Hin. }
    destruct Hfound as (-> & -> & ->). split; [done|]. split; [done|].
    by exists ignorelist, repos, sent, rest.
Qed.

Lemma pathLe_Less_false a b : pathLe a b → ReposByName_Less b a = false.
Proof.
  unfold pathLe, ReposByName_Less, String.le, String.ltb, String.leb.
  rewrite (String.compare_antisym (PathWithNamespace a) (PathWithNamespace b)).
  by destruct (String.compare (PathWithNamespace b) (PathWithNamespace a)).
Qed.

#[local] Instance pathLe_total : Total pathLe.
Proof.
  intros a b. unfold pathLe.
  apply (total String.le (PathWithNamespace a) (PathWithNamespace b)).
Qed.

Lemma worlds_sort_post repos : sort_Sort_post repos (worlds.sort repos).
Proof.
  unfold worlds.sort. split.
  - symmetry. apply merge_sort_Permutation.
  - unfold sortedByName.
    pose proof (Sorted_merge_sort pathLe repos) as Hsorted.
    induction Hsorted as [|a l Hl IH Hhd]; constructor; [done|].
    destruct Hhd as [|b l Hab]; constructor. by apply pathLe_Less_false.
Qed.

(** X25: what [main] writes, end to end.  With a [sort.Sort] that keeps
    its contract, the file written is the specification file, with mode
    0644, and its bytes are the serialization of a specification that has
    the name of the flags and whose records are in non-decreasing order of
    their names; every record is the record of a repository that the
    service listed, that is not on the ignore list and that is no fork
    unless forks are indexed. *)
Theorem main_written_specification (mf : MainFlags) (w : World)
    (trace : list Event) (file config : string) (perm : Z) :
  (∀ repos, sort_Sort_post repos (sort_Sort w repos)) →
  main mf w = Some trace → WriteFile file config perm ∈ trace →
  file = path.Join [flagRepoDir mf; "livegrep.json"] ∧ perm = 420%Z
  ∧ ∃ ignorelist repos sent rest cfg,
      main_ignorelist mf w = Ok ignorelist
      ∧ loadRepos (helperFlags mf) (flagGroups mf) (gitlab_answers w)
        = Some (Ok repos, sent, rest)
      ∧ json.MarshalIndent cfg = Ok config
      ∧ IndexName cfg = flagName mf
      ∧ StronglySorted (λ s t, String.le (Name s) (Name t)) (Repositories cfg)
      ∧ Forall
          (λ s, ∃ r, r ∈ repos
                     ∧ s = repoSpecOf (helperFlags mf) (flagRepoDir mf)
                             (flagRevision mf) r
                     ∧ (flagForks (helperFlags mf) = false →
                        ForkedFromProject r = None)
                     ∧ ¬ inIgnorelist ignorelist (PathWithNamespace r))
          (Repositories cfg).
Proof.
  intros Hsort Hmain Hin.
  destruct (main_write_inv mf w trace file config perm Hmain Hin)
    as (-> & -> & ignorelist & repos & sent & rest & Hign & Hload & Hbuild).
  split; [done|]. split; [done|].
  exists ignorelist, repos, sent, rest,
    (buildConfig_cfg (helperFlags mf) (git_Run w) (flagName mf) (flagRepoDir mf)
       (main_repos mf w repos ignorelist) (flagRevision mf)).1.
  split; [done|]. split; [done|].
  split; [by rewrite <- buildConfig_serialized|].
  split; [by rewrite buildConfig_cfg_spec|].
  split.
  { apply buildConfig_cfg_sorted. unfold main_repos. apply Hsort. }
  rewrite buildConfig_cfg_spec. cbn [Repositories].
  apply Forall_forall. intros s Hs%list_elem_of_In%in_map_iff.
  destruct Hs as (r & <- & Hr). unfold verified in Hr.
  apply filter_In in Hr as [Hr _]. apply list_elem_of_In in Hr.
  unfold main_repos in Hr.
  destruct (Hsort (filterRepos repos ignorelist (negb (flagForks (helperFlags mf)))
                     (negb (flagArchived (helperFlags mf)))).1) as [Hperm _].
  rewrite <- Hperm in Hr.
  apply elem_of_filterRepos in Hr as (Hr & Hfork & Hnot).
  exists r. split; [done|]. split; [done|]. split; [|done].
  intros Hforks. apply Hfork. by rewrite Hforks.
Qed.

Lemma main_written_specification_witness :
  ∃ config,
    WriteFile "/repos/livegrep.json" config 420
      ∈ default [] (main worlds.flags worlds.fine)
    ∧ ∃ ignorelist repos sent rest cfg,
        main_ignorelist worlds.flags worlds.fine = Ok ignorelist
        ∧ loadRepos (helperFlags worlds.flags) (flagGroups worlds.flags)
            (gitlab_answers worlds.fine)
          = Some (Ok repos, sent, rest)
        ∧ json.MarshalIndent cfg = Ok config
        ∧ IndexName cfg = flagName worlds.flags
        ∧ StronglySorted (λ s t, String.le (Name s) (Name t)) (Repositories cfg)
        ∧ Forall
            (λ s, ∃ r, r ∈ repos
                       ∧ s = repoSpecOf (helperFlags worlds.flags)
                               (flagRepoDir worlds.flags)
                               (flagRevision worlds.flags) r
                       ∧ (flagForks (helperFlags worlds.flags) = false →
                          ForkedFromProject r = None)
                       ∧ ¬ inIgnorelist ignorelist (PathWithNamespace r))
            (Repositories cfg).
Proof.
  eexists. split.
  - vm_compute. do 2 apply list_elem_of_further. apply list_elem_of_here.
  - eapply (main_written_specification worlds.flags worlds.fine
              (default [] (main worlds.flags worlds.fine))
              "/repos/livegrep.json" _ 420).
    + apply worlds_sort_post.
    + vm_compute. reflexivity.
    + vm_compute. do 2 apply list_elem_of_further. apply list_elem_of_here.
Defined.



(** ** path.Join in the records *)

Lemma Clean_nonempty p : path.Clean p ≠ "".
Proof.
  unfold path.Clean. destruct (list_ascii_of_string p) as [|c rest]; [done|].
  destruct (path.isSlash c).
  - by destruct (path.Clean_loop true rest [path.slash] 1).
  - by destruct (path.Clean_loop false (c :: rest) [] 0).
Qed.

Lemma Join_size_zero (elem : list string) (size : nat) :
  fold_left (λ size e, size + String.length e) elem size = 0
  ↔ size = 0 ∧ Forall (λ e, e = "") elem.
Proof.
  revert size. induction elem as [|e elem IH]; intros size; simpl.
  - split; [by intros -> | by intros [-> _]].
  - rewrite IH. split.
    + intros [Hsum Hall]. destruct e; simpl in Hsum; [|lia].
      split; [lia | by constructor].
    + intros [-> Hall]. inversion Hall; subst. by split.
Qed.

(** X27: [path.Join] gives the empty string only when every element is
    empty, and otherwise a non-empty cleaned path; so the [Path] of a record
    is empty exactly when both the root directory and the namespace-qualified
    path of the repository are empty. *)
Theorem Join_empty_iff (flags : Flags) (dir revision : string) (r : Project)
    (elem : list string) :
  (path.Join elem = "" ↔ Forall (λ e, e = "") elem)
  ∧ (Path (repoSpecOf flags dir revision r) = "" ↔
     dir = "" ∧ PathWithNamespace r = "").
Proof.
  assert (Hjoin : ∀ elem, path.Join elem = "" ↔ Forall (λ e, e = "") elem).
  { intros l. unfold path.Join.
    destruct (Nat.eqb_spec (fold_left (λ size e, size + String.length e) l 0) 0)
      as [Hzero|Hpos].
    - apply Join_size_zero in Hzero as [_ Hall]. by split.
    - split; [by intros ?%Clean_nonempty|].
      intros Hall. exfalso. apply Hpos. by apply Join_size_zero. }
  split; [apply Hjoin|].
  cbn [repoSpecOf Path]. rewrite Hjoin. split.
  - intros Hall. inversion Hall as [|? ? Hdir Hrest]; subst.
    inversion Hrest; subst. by split.
  - intros [-> ->]. by repeat constructor.
Qed.
